(** * Naive Bayes trainer of the expense tracker: [scripts/train_naive_bayes.py]

    A shallow embedding of the training script and the properties its
    specification states about it.

    Modelling conventions.
    - Python [str] values are Rocq [string]s: sequences of code points
      below 256.  On that range [str.lower] and the character class
      [[a-z0-9]] are modelled exactly.
    - Python [int] counters are [nat] (they only count upwards from 0).
    - Python [float] values are idealised: a true division of two
      counters is the exact rational ([Q]), [math.log] of it is the real
      logarithm ([R], [ln]), and sums of logarithms are sums of reals.
      Rounding is not modelled.  [-float('inf')] is an extra point below
      every real.
    - [dict] and [defaultdict] are [gmap]s, with the default written out at
      each lookup; [set] is [gset] and is iterated in the order of
      [elements].  Every proof below uses only that [elements] lists each
      member once.
    - An exception that leaves [train_naive_bayes] is a [Raise] result.
    - [json.load], [json.loads] and [str.strip] are library code: the input
      file is given by what they return on it (see [data_file]). *)

From Stdlib Require Import ZArith QArith Qreals Reals Lra Lia String Ascii List.
From stdpp Require Import base gmap strings list fin_maps.

Local Set Warnings "-register-all".

(** ** Exceptions *)

Inductive exn :=
  | JSONDecodeError
  | AttributeError
  | TypeError
  | KeyError
  | ValueError
  | ZeroDivisionError.

Inductive result (A : Type) :=
  | Ok (a : A)
  | Raise (e : exn).
Arguments Ok {A} a.
Arguments Raise {A} e.

Global Instance result_ret : MRet result := λ _ a, Ok a.
Global Instance result_bind : MBind result := λ _ _ f m,
  match m with
  | Ok a => f a
  | Raise e => Raise e
  end.

(** ** Tokenizer *)

Module Tokenizer.

(** [str.lower] on one code point below 256: the ASCII capitals and the
    Latin-1 capitals U+00C0..U+00DE (U+00D7, the multiplication sign, is
    not a letter) move up by 32; everything else is unchanged. *)
Definition lower_char (c : ascii) : ascii :=
  if (("A" <=? c) && (c <=? "Z"))%char
     || ((ascii_of_nat 192 <=? c) && (c <=? ascii_of_nat 222)
         && negb (c =? ascii_of_nat 215))%char
  then ascii_of_nat (nat_of_ascii c + 32)
  else c.

Fixpoint lower (text : string) : string :=
  match text with
  | EmptyString => EmptyString
  | String c rest => String (lower_char c) (lower rest)
  end.

(** The character class [[a-z0-9]]. *)
Definition is_alnum (c : ascii) : bool :=
  (("a" <=? c) && (c <=? "z") || ("0" <=? c) && (c <=? "9"))%char.

(** A finished run of class characters is a match; an empty run is not
    ([+] needs one character at least). *)
Definition emit (run : string) : list string :=
  match run with
  | EmptyString => []
  | _ => [run]
  end.

(** [re.findall(r'[a-z0-9]+', text)]: scan left to right, [run] being the
    match in progress; a character outside the class closes it. *)
Fixpoint findall (run text : string) : list string :=
  match text with
  | EmptyString => emit run
  | String c rest =>
      if is_alnum c then findall (run +:+ String c EmptyString) rest
      else emit run ++ findall EmptyString rest
  end.

Definition tokenize (text : string) : list string :=
  let text := lower text in
  let tokens := findall EmptyString text in
  tokens.

(** [" ".join(tokens)] *)
Definition join (tokens : list string) : string := String.concat " " tokens.

Fixpoint all_chars (P : ascii → bool) (s : string) : bool :=
  match s with
  | EmptyString => true
  | String c rest => P c && all_chars P rest
  end.

(** What the tokenizer promises of each token. *)
Definition is_token (t : string) : Prop :=
  t ≠ EmptyString ∧ all_chars is_alnum t = true.

(** The characters of a string of joined tokens. *)
Definition alnum_or_space (c : ascii) : bool := is_alnum c || (c =? " ")%char.

End Tokenizer.

(** ** JSON values, as [json.load] and [json.loads] return them *)

Module Json.

(** [members] lists the items of a [dict], whose keys are distinct.
    Numbers are kept as integers: the trainer only tests a number for
    truth, calls a method on it (which raises) or uses it as a key. *)
Inductive json :=
  | JNull
  | JBool (b : bool)
  | JNum (n : Z)
  | JStr (s : string)
  | JArr (items : list json)
  | JObj (members : list (string * json)).

(** Truth value of [v], as in [if not v]. *)
Definition truthy (v : json) : bool :=
  match v with
  | JNull => false
  | JBool b => b
  | JNum n => negb (n =? 0)%Z
  | JStr s => negb (String.eqb s EmptyString)
  | JArr items => match items with [] => false | _ => true end
  | JObj members => match members with [] => false | _ => true end
  end.

Fixpoint assoc (key : string) (members : list (string * json)) : option json :=
  match members with
  | [] => None
  | (k, v) :: rest => if String.eqb k key then Some v else assoc key rest
  end.

(** [record.get(key, default)]; only a [dict] has the method. *)
Definition get (record : json) (key : string) (dflt : json) : result json :=
  match record with
  | JObj members => Ok (default dflt (assoc key members))
  | _ => Raise AttributeError
  end.

(** A value as a [set] member or [dict] key.  Equal keys are one key:
    [True == 1] and [False == 0].  Lists and dicts are unhashable. *)
Inductive label :=
  | LNone
  | LNum (n : Z)
  | LStr (s : string).

Definition hash_key (v : json) : result label :=
  match v with
  | JNull => Ok LNone
  | JBool b => Ok (LNum (if b then 1 else 0))
  | JNum n => Ok (LNum n)
  | JStr s => Ok (LStr s)
  | JArr _ | JObj _ => Raise TypeError
  end.

Global Instance label_eq_dec : EqDecision label.
Proof. solve_decision. Defined.

Global Instance label_countable : Countable label :=
  inj_countable'
    (λ l, match l with
          | LNone => inl ()
          | LNum n => inr (inl n)
          | LStr s => inr (inr s)
          end)
    (λ x, match x with
          | inl _ => LNone
          | inr (inl n) => LNum n
          | inr (inr s) => LStr s
          end)
    (λ l, match l with LNone | LNum _ | LStr _ => eq_refl end).

End Json.

(** ** The input file *)

Module Input.
Import Json.

(** One line of the file, as the reading loop meets it: [line.strip()] is
    empty, or [json.loads(line)] raises, or it returns a value. *)
Inductive line :=
  | Blank
  | Malformed
  | Parsed (v : json).

(** [first_char] is [f.read(1)] ([None] at end of file).  [full_json] is
    what [json.load(f)] gives on the whole file when it starts with an
    opening brace: the members of the object, or [None] when it raises
    [JSONDecodeError]. *)
Record data_file := {
  first_char : option ascii;
  full_json : option (list (string * json));
  lines : list line;
}.

End Input.

(** ** [train_naive_bayes] *)

Module Train.
Import Tokenizer Json Input.

(** A [for] loop whose body may raise: the loop state is threaded through
    the items in order and the first exception ends the loop. *)
Fixpoint for_each {A S : Type} (body : S → A → result S) (s : S) (items : list A)
    : result S :=
  match items with
  | [] => Ok s
  | x :: rest => s' ← body s x; for_each body s' rest
  end.

(** *** 1. Load data *)

(** [for line in f: if line.strip(): source_records.append(json.loads(line))].
    The list is returned also when a line raises: [source_records] keeps
    what was appended before. *)
Fixpoint read_lines (ls : list line) (source_records : list json)
    : list json * result unit :=
  match ls with
  | [] => (source_records, Ok ())
  | Blank :: rest => read_lines rest source_records
  | Malformed :: _ => (source_records, Raise JSONDecodeError)
  | Parsed v :: rest => read_lines rest (source_records ++ [v])
  end.

(** [[r.get('sender') for r in source_records if r.get('sender')]] *)
Fixpoint senders_of (source_records : list json) : result (list json) :=
  match source_records with
  | [] => Ok []
  | r :: rest =>
      sender ← get r "sender" JNull;
      senders ← senders_of rest;
      Ok (if truthy sender then sender :: senders else senders)
  end.

(** [set(senders)] *)
Definition set_of (values : list json) : result (gset label) :=
  for_each (λ s v, k ← hash_key v; Ok ({[k]} ∪ s)) ∅ values.

Definition load_data (f : data_file) : result (list json) :=
  let source_records := [] in
  if bool_decide (first_char f = Some "{"%char) then
    match full_json f with
    | Some members =>
        match assoc "samples" members with
        | Some (JArr samples) =>
            senders ← senders_of samples;
            _ ← set_of senders;
            Ok samples
        | _ =>
            match read_lines (lines f) source_records with
            | (source_records, Ok _) => Ok source_records
            | (source_records, Raise JSONDecodeError) =>
                (* the [except] clause: read the lines again *)
                match read_lines (lines f) source_records with
                | (source_records, Ok _) => Ok source_records
                | (_, Raise e) => Raise e
                end
            | (_, Raise e) => Raise e
            end
        end
    | None =>
        match read_lines (lines f) source_records with
        | (source_records, Ok _) => Ok source_records
        | (_, Raise e) => Raise e
        end
    end
  else
    match read_lines (lines f) source_records with
    | (source_records, Ok _) => Ok source_records
    | (_, Raise e) => Raise e
    end.

(** *** The record loop *)

Record corpus := {
  documents : list (list string * label);
  all_categories : gset label;
  vocabulary : gset string;
}.

Definition empty_corpus : corpus :=
  {| documents := []; all_categories := ∅; vocabulary := ∅ |}.

(** [tokenize(text)]: [text.lower()] exists on a [str] only. *)
Definition tokenize_value (text : json) : result (list string) :=
  match text with
  | JStr s => Ok (tokenize s)
  | _ => Raise AttributeError
  end.

(** The text and the label that the loop body resolves from a record. *)
Definition resolve_text (record : json) : result json :=
  text ← get record "merchant" (JStr "");
  if negb (truthy text) then get record "text" (JStr "") else Ok text.

Definition resolve_category (record : json) : result json :=
  category ← get record "category" JNull;
  if negb (truthy category) then get record "label" JNull else Ok category.

(** One turn of [for record in source_records].  The category enters
    [documents] and [all_categories] as the key it is in a set. *)
Definition add_record (st : corpus) (record : json) : result corpus :=
  text ← resolve_text record;
  category ← resolve_category record;
  if negb (truthy category) || negb (truthy text) then Ok st
  else
    tokens ← tokenize_value text;
    match tokens with
    | [] => Ok st
    | _ =>
        category ← hash_key category;
        Ok {| documents := documents st ++ [(tokens, category)];
              all_categories := {[category]} ∪ all_categories st;
              vocabulary := list_to_set tokens ∪ vocabulary st |}
    end.

Definition add_records (source_records : list json) : result corpus :=
  for_each add_record empty_corpus source_records.

(** *** 2. Train (calculate counts) *)

Record counts := {
  class_counts : gmap label nat;
  class_word_counts : gmap label (gmap string nat);
  class_total_words : gmap label nat;
}.

Definition empty_counts : counts :=
  {| class_counts := ∅; class_word_counts := ∅; class_total_words := ∅ |}.

(** [d[k] += 1] on a [defaultdict(int)] *)
Definition incr `{Countable K} (k : K) (d : gmap K nat) : gmap K nat :=
  <[k := default 0 (d !! k) + 1]> d.

Definition count_token (category : label) (cs : counts) (token : string) : counts :=
  let by_word := default ∅ (class_word_counts cs !! category) in
  {| class_counts := class_counts cs;
     class_word_counts :=
       <[category := incr token by_word]> (class_word_counts cs);
     class_total_words := incr category (class_total_words cs) |}.

Definition count_document (cs : counts) (doc : list string * label) : counts :=
  let '(tokens, category) := doc in
  let cs := {| class_counts := incr category (class_counts cs);
               class_word_counts := class_word_counts cs;
               class_total_words := class_total_words cs |} in
  foldl (count_token category) cs tokens.

Definition count_documents (docs : list (list string * label)) : counts :=
  foldl count_document empty_counts docs.

(** The three reads of step 3: [class_counts[cat]],
    [class_word_counts[cat].get(word, 0)] and [class_total_words[cat]]. *)
Definition class_count (cs : counts) (cat : label) : nat :=
  default 0 (class_counts cs !! cat).

Definition class_word_count (cs : counts) (cat : label) (word : string) : nat :=
  default 0 (default ∅ (class_word_counts cs !! cat) !! word).

Definition class_total (cs : counts) (cat : label) : nat :=
  default 0 (class_total_words cs !! cat).

(** *** 3. Calculate log probabilities (smoothing) *)

(** [a / b] on two counters *)
Definition true_div (a b : nat) : result Q :=
  match b with
  | 0 => Raise ZeroDivisionError
  | S _ => Ok (Z.of_nat a # Pos.of_nat b)
  end.

(** [math.log(prob)]: a math domain error unless [prob] is positive. *)
Definition math_log (prob : Q) : result R :=
  if Qle_bool prob 0 then Raise ValueError else Ok (ln (Q2R prob)).

(** Body of the first [for cat in all_categories]. *)
Definition prior_step (cs : counts) (total_docs : nat)
    (log_priors : gmap label R) (cat : label) : result (gmap label R) :=
  prob ← true_div (class_count cs cat) total_docs;
  log_prob ← math_log prob;
  Ok (<[cat := log_prob]> log_priors).

(** Body of [for word in vocabulary], filling the row of [cat]. *)
Definition word_step (cs : counts) (cat : label) (denom : nat)
    (row : gmap string R) (word : string) : result (gmap string R) :=
  let count := class_word_count cs cat word in
  prob ← true_div (count + 1) denom;
  log_prob ← math_log prob;
  Ok (<[word := log_prob]> row).

(** Body of the second [for cat in all_categories]. *)
Definition likelihood_step (cs : counts) (vocabulary : gset string)
    (vocab_size : nat) (log_likelihoods : gmap label (gmap string R))
    (cat : label) : result (gmap label (gmap string R)) :=
  let denom := class_total cs cat + vocab_size in
  row ← for_each (word_step cs cat denom) ∅ (elements vocabulary);
  Ok (<[cat := row]> log_likelihoods).

(** *** 4. Export model *)

Record model := {
  algorithm : string;
  vocab_size : nat;
  doc_count : nat;
  priors : gmap label R;
  likelihoods : gmap label (gmap string R);
}.

(** Steps 2 to 4, up to the model that is about to be saved. *)
Definition estimate (st : corpus) : result model :=
  let cs := count_documents (documents st) in
  let total_docs := length (documents st) in
  log_priors ←
    for_each (prior_step cs total_docs) ∅ (elements (all_categories st));
  let vocab_size := size (vocabulary st) in
  log_likelihoods ←
    for_each (likelihood_step cs (vocabulary st) vocab_size) ∅
      (elements (all_categories st));
  Ok {| algorithm := "NaiveBayes";
        vocab_size := vocab_size;
        doc_count := total_docs;
        priors := log_priors;
        likelihoods := log_likelihoods |}.

(** *** Validation on the training set *)

(** [d[k]] on a plain [dict] *)
Definition getitem `{Countable K} {V} (d : gmap K V) (k : K) : result V :=
  match d !! k with
  | Some v => Ok v
  | None => Raise KeyError
  end.

(** The running best score: [-float('inf')] or a finite score. *)
Inductive bound :=
  | NegInf
  | Fin (x : R).

(** [score > best_score] *)
Definition exceeds (score : R) (best_score : bound) : bool :=
  match best_score with
  | NegInf => true
  | Fin b => if Rlt_dec b score then true else false
  end.

(** Body of [for token in tokens]. *)
Definition token_step (log_likelihoods : gmap label (gmap string R))
    (cat : label) (score : R) (token : string) : result R :=
  row ← getitem log_likelihoods cat;
  match row !! token with
  | Some log_prob => Ok (score + log_prob)%R
  | None => Ok score
  end.

Definition score_of (m : model) (cat : label) (tokens : list string) : result R :=
  score ← getitem (priors m) cat;
  for_each (token_step (likelihoods m) cat) score tokens.

(** Body of [for cat in all_categories] in the self-test. *)
Definition best_step (m : model) (tokens : list string)
    (best : option label * bound) (cat : label) : result (option label * bound) :=
  score ← score_of m cat tokens;
  if exceeds score best.2 then Ok (Some cat, Fin score) else Ok best.

(** The classification of one document: [best_cat] after the loop over
    the categories, [None] when it was never assigned. *)
Definition classify (m : model) (all_categories : gset label)
    (tokens : list string) : result (option label) :=
  best ← for_each (best_step m tokens) (None, NegInf) (elements all_categories);
  Ok best.1.

(** [best_cat == true_cat] *)
Definition same_category (best_cat : option label) (true_cat : label) : bool :=
  match best_cat with
  | Some cat => bool_decide (cat = true_cat)
  | None => bool_decide (true_cat = LNone)
  end.

Definition self_test_step (m : model) (all_categories : gset label)
    (correct : nat) (doc : list string * label) : result nat :=
  let '(tokens, true_cat) := doc in
  best_cat ← classify m all_categories tokens;
  Ok (if same_category best_cat true_cat then correct + 1 else correct).

Definition self_test (m : model) (st : corpus) : result nat :=
  for_each (self_test_step m (all_categories st)) 0 (documents st).

(** *** The whole run *)

(** What a run leaves behind: the model written to the output path, if the
    run got that far, and how it ended: with the training accuracy
    [correct / total_docs] printed, or with an exception. *)
Record run := {
  output_file : option model;
  finish : result Q;
}.

(** Everything up to the model that is saved. *)
Definition corpus_of (f : data_file) : result corpus :=
  source_records ← load_data f;
  add_records source_records.

Definition train (f : data_file) : result (corpus * model) :=
  st ← corpus_of f;
  m ← estimate st;
  Ok (st, m).

Definition train_naive_bayes (f : data_file) : run :=
  match train f with
  | Raise e => {| output_file := None; finish := Raise e |}
  | Ok (st, m) =>
      {| output_file := Some m;
         finish := correct ← self_test m st;
                   true_div correct (doc_count m) |}
  end.

End Train.

(** ** The quantities the specification speaks of

    These follow the words of the specification, not the code; the
    properties below compare the two. *)

Module Spec.
Import Json Input Train.

Definition document : Type := list string * label.

(** The retained documents labeled [c]. *)
Definition labeled (c : label) (docs : list document) : list document :=
  filter (λ d, d.2 = c) docs.

(** count(c): the number of retained documents labeled [c]. *)
Definition count (c : label) (docs : list document) : nat :=
  length (labeled c docs).

(** Every token occurrence of the documents labeled [c]. *)
Definition tokens_in (c : label) (docs : list document) : list string :=
  concat (fst <$> labeled c docs).

(** occurrences(w, c) *)
Definition occurrences (w : string) (c : label) (docs : list document) : nat :=
  length (filter (λ t, t = w) (tokens_in c docs)).

(** totalTokens(c): token occurrences, not distinct tokens. *)
Definition total_tokens (c : label) (docs : list document) : nat :=
  length (tokens_in c docs).

(** totalDocuments: the sum of count(c) over the observed categories. *)
Definition total_documents (cats : gset label) (docs : list document) : nat :=
  sum_list ((λ c, count c docs) <$> elements cats).

(** The smoothed estimate of P(w | c), as a real number. *)
Definition smoothed (w : string) (c : label) (st : corpus) : R :=
  (INR (occurrences w c (documents st) + 1)
   / INR (total_tokens c (documents st) + size (vocabulary st)))%R.

(** The estimate of P(c). *)
Definition prior (c : label) (st : corpus) : R :=
  (INR (count c (documents st))
   / INR (total_documents (all_categories st) (documents st)))%R.

Definition Rsum (xs : list R) : R := foldr Rplus 0%R xs.

(** The score of category [c] for a document: its log-prior plus the
    log-likelihood of each token of the document that is in the
    vocabulary. *)
Definition score (st : corpus) (c : label) (tokens : list string) : R :=
  (ln (prior c st)
   + Rsum ((λ t, ln (smoothed t c st))
           <$> filter (λ t, t ∈ vocabulary st) tokens))%R.


(** A field resolves when the record has it with a true value. *)
Definition resolved (members : list (string * json)) (key : string) : option json :=
  v ← assoc key members; if truthy v then Some v else None.

(** The first of two fields that resolves. *)
Definition first_resolved (members : list (string * json)) (primary fallback : string)
    : option json :=
  match resolved members primary with
  | Some v => Some v
  | None => resolved members fallback
  end.

(** What becomes of a record once its text and label are resolved: it is
    dropped unless both are, and unless the text has a token. *)
Definition keep (st : corpus) (text category : option json) : result corpus :=
  match text, category with
  | Some text, Some category =>
      tokens ← tokenize_value text;
      match tokens with
      | [] => Ok st
      | _ =>
          category ← hash_key category;
          Ok {| documents := documents st ++ [(tokens, category)];
                all_categories := {[category]} ∪ all_categories st;
                vocabulary := list_to_set tokens ∪ vocabulary st |}
      end
  | _, _ => Ok st
  end.

(** The file is a batch export: one object whose [samples] is a list. *)
Definition batch_export (f : data_file) : Prop :=
  first_char f = Some "{"%char ∧
  ∃ members samples,
    full_json f = Some members ∧ assoc "samples" members = Some (JArr samples).

(** The values of the lines that parse, in file order. *)
Definition parsed_values (ls : list line) : list json :=
  omap (λ l, match l with Parsed v => Some v | _ => None end) ls.
(** What the record loop maintains. *)
Record corpus_ok (st : corpus) : Prop := {
  ok_categories :
    ∀ c, c ∈ all_categories st ↔ ∃ tokens, (tokens, c) ∈ documents st;
  ok_vocabulary :
    ∀ w, w ∈ vocabulary st ↔ ∃ d, d ∈ documents st ∧ w ∈ d.1;
  ok_tokens : ∀ d, d ∈ documents st → d.1 ≠ [];
}.

(** What the estimation leaves in the model: a prior for each observed
    category and nothing else, and for each observed category a row with
    an entry for each token of the vocabulary and nothing else. *)
Record trained (st : corpus) (m : model) : Prop := {
  trained_vocab_size : vocab_size m = size (vocabulary st);
  trained_doc_count : doc_count m = length (documents st);
  trained_priors :
    ∀ c, priors m !! c =
         if decide (c ∈ all_categories st) then Some (ln (prior c st))
         else None;
  trained_rows :
    ∀ c, c ∈ all_categories st →
         ∃ row, likelihoods m !! c = Some row
                ∧ ∀ w, row !! w =
                       if decide (w ∈ vocabulary st)
                       then Some (ln (smoothed w c st)) else None;
  trained_no_row : ∀ c, c ∉ all_categories st → likelihoods m !! c = None;
}.

(** The score of [cat] read off the tables of a model. *)
Definition table_score (m : model) (cat : label) (tokens : list string) : R :=
  let row := default ∅ (likelihoods m !! cat) in
  foldl (λ score token,
           match row !! token with
           | Some log_prob => (score + log_prob)%R
           | None => score
           end)
        (default 0%R (priors m !! cat)) tokens.

(** The probability mass of a row: exp(log-likelihood) summed over the
    tokens of the row. *)
Definition mass (row : gmap string R) : R :=
  Rsum ((λ w, match row !! w with
              | Some log_prob => exp log_prob
              | None => 0%R
              end) <$> elements (dom row)).

(** The state of the loop over the categories once it has seen [seen]:
    nothing yet, or a category of greatest score among them, the first
    such.  [f] gives the score of each category. *)
Definition best_of (f : label → R) (seen : list label)
    (best : option label * bound) : Prop :=
  match best with
  | (None, NegInf) => seen = []
  | (Some c, Fin s) =>
      c ∈ seen ∧ s = f c ∧ ∀ c', c' ∈ seen → (f c' <= s)%R
  | _ => False
  end.

End Spec.

(** ** Concrete inputs *)

Module Examples.
Import Json Input Train.

Definition record (merchant category : string) : json :=
  JObj [("merchant", JStr merchant); ("category", JStr category)].

(** The corpus of the scenario of the specification, one record per line.
    The file starts with a brace and is not one JSON document. *)
Definition scenario_file : data_file :=
  {| first_char := Some "{"%char;
     full_json := None;
     lines := [Parsed (record "zomato order" "Food");
               Parsed (record "zomato order" "Food");
               Parsed (record "uber ride" "Transport")] |}.

Definition scenario_corpus : corpus :=
  {| documents := [(["zomato"; "order"], LStr "Food");
                   (["zomato"; "order"], LStr "Food");
                   (["uber"; "ride"], LStr "Transport")];
     all_categories := {[LStr "Food"; LStr "Transport"]};
     vocabulary := {["zomato"; "order"; "uber"; "ride"]} |}.

(** The empty file. *)
Definition empty_file : data_file :=
  {| first_char := None; full_json := None; lines := [] |}.

(** The model with no category and no token. *)
Definition empty_model : model :=
  {| algorithm := "NaiveBayes";
     vocab_size := 0;
     doc_count := 0;
     priors := ∅;
     likelihoods := ∅ |}.

(** The scenario with a line in the middle that is not JSON. *)
Definition broken_file : data_file :=
  {| first_char := Some "{"%char;
     full_json := None;
     lines := [Parsed (record "zomato order" "Food");
               Malformed;
               Parsed (record "uber ride" "Transport")] |}.

(** A record that has both text fields. *)
Definition both_fields : list (string * json) :=
  [("text", JStr "uber ride");
   ("merchant", JStr "zomato");
   ("category", JStr "Food")].

End Examples.

(** ** Further notions for the tokenizer *)

Module Text.

(** The characters of [s] that satisfy [P], in order. *)
Fixpoint keep_chars (P : ascii → bool) (s : string) : string :=
  match s with
  | EmptyString => EmptyString
  | String c rest =>
      if P c then String c (keep_chars P rest) else keep_chars P rest
  end.

(** [''.join(tokens)] *)
Definition flatten (tokens : list string) : string :=
  foldr String.app EmptyString tokens.

End Text.

(** ** Shapes of JSON values *)

Module Shapes.
Import Json.

(** [v] is a [dict]. *)
Definition is_object (v : json) : bool :=
  match v with
  | JObj _ => true
  | _ => false
  end.

(** [v] is a [str]. *)
Definition is_string (v : json) : bool :=
  match v with
  | JStr _ => true
  | _ => false
  end.

(** [v] can be a [set] member: it is no [list] and no [dict]. *)
Definition hashable (v : json) : bool :=
  match v with
  | JArr _ | JObj _ => false
  | _ => true
  end.

(** A sample of a batch export that the sender statistics accept: an
    object whose [sender], when it is true, can be a [set] member. *)
Definition sample_ok (r : json) : bool :=
  match r with
  | JObj members =>
      match assoc "sender" members with
      | Some sender => negb (truthy sender) || hashable sender
      | None => true
      end
  | _ => false
  end.

(** An object whose [sender] is true and cannot be a [set] member. *)
Definition unhashable_sender (r : json) : bool :=
  match r with
  | JObj members =>
      match assoc "sender" members with
      | Some sender => truthy sender && negb (hashable sender)
      | None => false
      end
  | _ => false
  end.

End Shapes.

(** ** [scripts/convert_log_to_jsonl.py]

    The script that writes the labeled records the trainer reads.  A line
    is taken as this loop meets it: the stripped line is empty, or
    [json.loads] of it raises, or returns a value. *)

Module Convert.
Import Json Input Train.

(** The record appended for a log entry.  [conf] is the constant 1.0,
    held as the number 1. *)
Definition standard_record (text merchant label : json) : json :=
  JObj [("text", text);
        ("merchant", merchant);
        ("label", label);
        ("conf", JNum 1);
        ("source", JStr "APP_LOG")].

(** The body of the [try] for one parsed line.  The [.get] calls raise
    [AttributeError] on a value that is not a [dict]; the [except] clause
    catches [JSONDecodeError] only. *)
Definition convert_entry (records : list json) (data : json) : result (list json) :=
  raw_input ← get data "rawInput" (JObj []);
  parsed ← get data "parsedFields" (JObj []);
  decision ← get data "finalDecision" (JObj []);
  text ← get raw_input "fullMessageText" JNull;
  merchant ← get parsed "merchantName" JNull;
  label ← get decision "categoryName" JNull;
  if negb (truthy text) || negb (truthy label) then Ok records
  else if negb (truthy merchant) then Ok records
  else Ok (records ++ [standard_record text merchant label]).

(** [for line in f]: blank lines and lines that are not JSON are passed
    over. *)
Fixpoint convert_lines (ls : list line) (records : list json)
    : result (list json) :=
  match ls with
  | [] => Ok records
  | Blank :: rest => convert_lines rest records
  | Malformed :: rest => convert_lines rest records
  | Parsed data :: rest =>
      records ← convert_entry records data;
      convert_lines rest records
  end.

(** The records written to the output file, one per line, in order; the
    file is opened after the loop, so nothing is written when the loop
    raises. *)
Definition convert_log_to_training_data (ls : list line) : result (list json) :=
  let records := [] in
  convert_lines ls records.

End Convert.

(** ** Further concrete inputs *)

Module Cases.
Import Json Input Train Examples Convert.

(** A log entry of the application. *)
Definition log_entry (text merchant category : json) : json :=
  JObj [("rawInput", JObj [("fullMessageText", text)]);
        ("parsedFields", JObj [("merchantName", merchant)]);
        ("finalDecision", JObj [("categoryName", category)])].

(** A log with a blank line, a line that is not JSON, an entry without a
    merchant, and two complete entries. *)
Definition scenario_log : list line :=
  [Parsed (log_entry (JStr "Rs 250 spent at ZOMATO ORDER") (JStr "Zomato Order")
             (JStr "Food"));
   Blank;
   Malformed;
   Parsed (log_entry (JStr "Your OTP is 1234") JNull (JStr "Other"));
   Parsed (log_entry (JStr "Rs 90 paid to UBER RIDE") (JStr "Uber Ride")
             (JStr "Transport"))].

(** A log whose second entry has [null] for [rawInput]. *)
Definition null_raw_input_log : list line :=
  [Parsed (log_entry (JStr "Rs 250 spent at ZOMATO ORDER") (JStr "Zomato Order")
             (JStr "Food"));
   Parsed (JObj [("rawInput", JNull)])].

(** A line file whose second line is the number 5. *)
Definition number_file : data_file :=
  {| first_char := Some "{"%char;
     full_json := None;
     lines := [Parsed (record "zomato order" "Food"); Parsed (JNum 5)] |}.

(** A record whose merchant is a number. *)
Definition numeric_merchant : list (string * json) :=
  [("merchant", JNum 42); ("category", JStr "Food")].

(** A record whose category is a list. *)
Definition list_category : list (string * json) :=
  [("merchant", JStr "zomato"); ("category", JArr [JStr "Food"])].

(** A record whose merchant is punctuation only. *)
Definition punctuation_merchant : list (string * json) :=
  [("merchant", JStr "--- !!"); ("category", JStr "Food")].

(** A batch export of the scenario; its lines, read one by one, are not
    JSON. *)
Definition export_samples : list json :=
  [JObj [("merchant", JStr "zomato order");
         ("category", JStr "Food");
         ("sender", JStr "HDFCBK")];
   record "uber ride" "Transport"].

Definition export_file : data_file :=
  {| first_char := Some "{"%char;
     full_json := Some [("samples", JArr export_samples)];
     lines := [Malformed; Malformed; Malformed] |}.

(** A batch export with a sample that is a string. *)
Definition export_with_string : data_file :=
  {| first_char := Some "{"%char;
     full_json :=
       Some [("samples",
              JArr [record "zomato order" "Food"; JStr "uber ride"])];
     lines := [Malformed] |}.

(** A batch export with a sample whose sender is a list. *)
Definition export_with_list_sender : data_file :=
  {| first_char := Some "{"%char;
     full_json :=
       Some [("samples",
              JArr [record "zomato order" "Food";
                    JObj [("merchant", JStr "uber ride");
                          ("category", JStr "Transport");
                          ("sender", JArr [JStr "UBER"])]])];
     lines := [Malformed] |}.



End Cases.

(** ** Further notions for the model *)

Module Tables.
Import Json Train Spec.

(** The probability mass of the priors: exp(log-prior) summed over the
    categories of the table. *)
Definition prior_mass (log_priors : gmap label R) : R :=
  Rsum ((λ c, match log_priors !! c with
              | Some log_prob => exp log_prob
              | None => 0%R
              end) <$> elements (dom log_priors)).


End Tables.

(** * Properties *)

Module TokenizerFacts.
Import Tokenizer.

Lemma all_chars_app P s t :
  all_chars P (s +:+ t) = all_chars P s && all_chars P t.
Proof.
  induction s as [|c s IH]; simpl; [done|].
  by rewrite IH, andb_assoc.
Qed.

Lemma all_chars_weaken (P P' : ascii → bool) s :
  (∀ c, P c = true → P' c = true) →
  all_chars P s = true → all_chars P' s = true.
Proof.
  intros HP. induction s as [|c s IH]; simpl; [done|].
  intros [Hc Hs]%andb_true_iff. rewrite (HP _ Hc), (IH Hs). done.
Qed.

Lemma app_cons c s t : String c s +:+ t = String c (s +:+ t).
Proof. reflexivity. Qed.

Lemma app_snoc run c t :
  (run +:+ String c EmptyString) +:+ t = run +:+ String c t.
Proof.
  induction run as [|d run IH]; [done|].
  by rewrite !app_cons, IH.
Qed.

Lemma app_empty_r s : s +:+ EmptyString = s.
Proof. induction s as [|c s IH]; [done|]. by rewrite app_cons, IH. Qed.

Lemma app_is_empty s t : s +:+ t = EmptyString → s = EmptyString.
Proof. by destruct s. Qed.

(** A stretch of class characters is swallowed by the run in progress. *)
Lemma findall_run run t rest :
  all_chars is_alnum t = true →
  findall run (t +:+ rest) = findall (run +:+ t) rest.
Proof.
  revert run. induction t as [|c t IH]; intros run; simpl.
  - by rewrite app_empty_r.
  - intros [Hc Ht]%andb_true_iff. rewrite Hc, IH by done.
    by rewrite app_snoc.
Qed.

Lemma findall_tokens run text :
  all_chars is_alnum run = true →
  Forall is_token (findall run text).
Proof.
  revert run. induction text as [|c text IH]; intros run Hrun; simpl.
  - destruct run; simpl; [constructor|].
    constructor; [|constructor]. by split.
  - destruct (is_alnum c) eqn:Hc.
    + apply IH. rewrite all_chars_app, Hrun. simpl. by rewrite Hc.
    + apply Forall_app. split; [|by apply IH].
      destruct run; simpl; [constructor|].
      constructor; [|constructor]. by split.
Qed.

Lemma tokenize_tokens text : Forall is_token (tokenize text).
Proof. by apply findall_tokens. Qed.

Lemma emit_token t : is_token t → emit t = [t].
Proof. intros [Hne _]. by destruct t. Qed.

Lemma lower_char_alnum c : is_alnum c = true → lower_char c = c.
Proof.
  destruct c as [[] [] [] [] [] [] [] []]; vm_compute; congruence.
Qed.

Lemma lower_char_space : lower_char " " = " "%char.
Proof. reflexivity. Qed.

Lemma lower_fixed s : all_chars alnum_or_space s = true → lower s = s.
Proof.
  induction s as [|c s IH]; simpl; [done|].
  intros [Hc Hs]%andb_true_iff. rewrite (IH Hs). f_equal.
  apply orb_true_iff in Hc as [Hc|Hc%Ascii.eqb_eq].
  - by apply lower_char_alnum.
  - by subst.
Qed.

Lemma join_cons t ts :
  join (t :: ts) =
  match ts with [] => t | _ => t +:+ String " " (join ts) end.
Proof. by destruct ts. Qed.

Lemma join_chars ts :
  Forall is_token ts → all_chars alnum_or_space (join ts) = true.
Proof.
  induction 1 as [|t ts [_ Ht] Hts IH]; [done|].
  rewrite join_cons.
  assert (all_chars alnum_or_space t = true) as Ht'.
  { revert Ht. apply all_chars_weaken. intros c Hc.
    unfold alnum_or_space. by rewrite Hc. }
  destruct ts as [|t' ts]; [done|].
  rewrite all_chars_app, Ht'. simpl. exact IH.
Qed.

(** Scanning the joined tokens finds the tokens again. *)
Lemma findall_join ts :
  Forall is_token ts → findall EmptyString (join ts) = ts.
Proof.
  induction 1 as [|t ts Ht Hts IH]; [done|].
  rewrite join_cons. destruct Ht as [Hne Ht].
  destruct ts as [|t' ts].
  - rewrite <- (app_empty_r t) at 1. rewrite findall_run by done.
    simpl. by apply emit_token.
  - rewrite findall_run by done. simpl findall.
    rewrite IH. simpl. by rewrite emit_token.
Qed.

End TokenizerFacts.

Module LoopFacts.
Import Train.

Lemma bind_Ok {A B} (m : result A) (k : A → result B) b :
  (x ← m; k x) = Ok b ↔ ∃ a, m = Ok a ∧ k a = Ok b.
Proof.
  destruct m as [a|e]; simpl; split.
  - intros H. by exists a.
  - by intros (? & [= <-] & H).
  - done.
  - by intros (? & [=] & _).
Qed.

(** A property that every turn of a loop preserves holds when the loop
    ends normally. *)
Lemma for_each_invariant {A S} (P : S → Prop) (body : S → A → result S) items :
  (∀ s x s', P s → body s x = Ok s' → P s') →
  ∀ s r, P s → for_each body s items = Ok r → P r.
Proof.
  intros Hbody. induction items as [|x items IH]; intros s r Hs; simpl.
  - by intros [= <-].
  - intros (s' & Hx & Hrest)%bind_Ok. eauto.
Qed.

(** A loop none of whose turns raises is a left fold. *)
Lemma for_each_pure {A S} (body : S → A → result S) (step : S → A → S) items :
  (∀ s x, x ∈ items → body s x = Ok (step s x)) →
  ∀ s, for_each body s items = Ok (foldl step s items).
Proof.
  induction items as [|x items IH]; intros Hbody s; simpl; [done|].
  rewrite Hbody by left. simpl. apply IH.
  intros s' y Hy. apply Hbody. by right.
Qed.

Lemma for_each_app {A S} (body : S → A → result S) s xs ys :
  for_each body s (xs ++ ys) = (s' ← for_each body s xs; for_each body s' ys).
Proof.
  revert s. induction xs as [|x xs IH]; intros s; simpl; [done|].
  destruct (body s x) as [s'|e]; simpl; [apply IH|done].
Qed.

(** The dictionary that a loop of assignments [d[x] = g x] builds. *)
Lemma lookup_foldl_insert `{Countable K} {V} (g : K → V) (items : list K)
    (d : gmap K V) k :
  foldl (λ d x, <[x := g x]> d) d items !! k =
  if decide (k ∈ items) then Some (g k) else d !! k.
Proof.
  revert d. induction items as [|x items IH]; intros d; simpl.
  - destruct (decide (k ∈ [])) as [Hk%elem_of_nil|_]; done.
  - rewrite IH. destruct (decide (k ∈ items)) as [Hin|Hnin].
    + rewrite decide_True by (by right). done.
    + destruct (decide (k = x)) as [->|Hne].
      * rewrite decide_True by left. by rewrite lookup_insert_eq.
      * rewrite decide_False by (by intros [?|?]%elem_of_cons).
        by rewrite lookup_insert_ne.
Qed.

End LoopFacts.

Module IngestFacts.
Import Tokenizer Json Input Train Spec LoopFacts.

Lemma read_lines_parsed ls acc :
  Malformed ∉ ls → read_lines ls acc = (acc ++ parsed_values ls, Ok ()).
Proof.
  revert acc. induction ls as [|l ls IH]; intros acc Hno; simpl.
  - by rewrite app_nil_r.
  - assert (Malformed ∉ ls) as Hls by (intros ?; apply Hno; by right).
    destruct l as [| |v].
    + by apply IH.
    + destruct Hno. left.
    + rewrite IH by done. cbn. by rewrite <- app_assoc.
Qed.

Lemma read_lines_malformed ls acc :
  Malformed ∈ ls → ∃ acc', read_lines ls acc = (acc', Raise JSONDecodeError).
Proof.
  revert acc. induction ls as [|l ls IH]; intros acc Hin.
  - by apply elem_of_nil in Hin.
  - destruct l as [| |v]; simpl.
    + apply IH. by apply elem_of_cons in Hin as [?|?].
    + by eexists.
    + apply IH. by apply elem_of_cons in Hin as [?|?].
Qed.

Lemma plain_read_malformed ls :
  Malformed ∈ ls →
  match read_lines ls [] with
  | (source_records, Ok _) => Ok source_records
  | (_, Raise e) => Raise e
  end = Raise JSONDecodeError.
Proof. intros Hin. by destruct (read_lines_malformed _ [] Hin) as [acc' ->]. Qed.

Lemma retry_read_malformed ls :
  Malformed ∈ ls →
  match read_lines ls [] with
  | (source_records, Ok _) => Ok source_records
  | (source_records, Raise JSONDecodeError) =>
      match read_lines ls source_records with
      | (source_records, Ok _) => Ok source_records
      | (_, Raise e) => Raise e
      end
  | (_, Raise e) => Raise e
  end = Raise JSONDecodeError.
Proof.
  intros Hin. destruct (read_lines_malformed _ [] Hin) as [acc' ->].
  by destruct (read_lines_malformed _ acc' Hin) as [acc'' ->].
Qed.

Lemma load_data_malformed f :
  ¬ batch_export f → Malformed ∈ lines f → load_data f = Raise JSONDecodeError.
Proof.
  intros Hnot Hin. unfold load_data.
  case_bool_decide as Hfirst; [|by apply plain_read_malformed].
  destruct (full_json f) as [members|] eqn:Hfull;
    [|by apply plain_read_malformed].
  destruct (assoc "samples" members) as [v|] eqn:Hsamples;
    [|by apply retry_read_malformed].
  destruct v; try by apply retry_read_malformed.
  destruct Hnot. split; [done|]. eauto.
Qed.

Lemma load_data_well_formed f :
  ¬ batch_export f → Malformed ∉ lines f →
  load_data f = Ok (parsed_values (lines f)).
Proof.
  intros Hnot Hno. unfold load_data.
  case_bool_decide as Hfirst; [|by rewrite read_lines_parsed].
  destruct (full_json f) as [members|] eqn:Hfull;
    [|by rewrite read_lines_parsed].
  destruct (assoc "samples" members) as [v|] eqn:Hsamples;
    [|by rewrite read_lines_parsed].
  destruct v; try by rewrite read_lines_parsed.
  destruct Hnot. split; [done|]. eauto.
Qed.

(** The pattern of both lookups: take [primary], and [fallback] when the
    value is false. *)
Lemma resolve_two members primary fallback dflt :
  truthy dflt = false →
  ∃ v, (v ← get (JObj members) primary dflt;
        if negb (truthy v) then get (JObj members) fallback dflt else Ok v) = Ok v
       ∧ first_resolved members primary fallback =
         if truthy v then Some v else None.
Proof.
  intros Hd. unfold first_resolved, resolved. simpl.
  destruct (assoc primary members) as [v|]; simpl.
  - destruct (truthy v) eqn:Hv; simpl.
    + exists v. by rewrite Hv.
    + destruct (assoc fallback members) as [v'|]; simpl.
      * exists v'. by destruct (truthy v').
      * exists dflt. by rewrite Hd.
  - rewrite Hd. simpl.
    destruct (assoc fallback members) as [v'|]; simpl.
    + exists v'. by destruct (truthy v').
    + exists dflt. by rewrite Hd.
Qed.

Lemma add_record_keep st members :
  add_record st (JObj members) =
  keep st (first_resolved members "merchant" "text")
          (first_resolved members "category" "label").
Proof.
  unfold add_record, resolve_text, resolve_category.
  destruct (resolve_two members "merchant" "text" (JStr "") eq_refl)
    as (text & -> & ->).
  destruct (resolve_two members "category" "label" JNull eq_refl)
    as (category & -> & ->).
  simpl. by destruct (truthy category), (truthy text).
Qed.

Lemma empty_corpus_ok : corpus_ok empty_corpus.
Proof.
  split; simpl.
  - intros c. split; [set_solver|]. by intros (? & ?%elem_of_nil).
  - intros w. split; [set_solver|]. by intros (? & ?%elem_of_nil & _).
  - by intros d ?%elem_of_nil.
Qed.

Lemma add_record_ok st record st' :
  corpus_ok st → add_record st record = Ok st' → corpus_ok st'.
Proof.
  intros [Hc Hv Ht]. unfold add_record.
  intros (text & _ & H)%bind_Ok. apply bind_Ok in H as (category & _ & H).
  destruct (negb (truthy category) || negb (truthy text)).
  { injection H as <-. by split. }
  apply bind_Ok in H as (tokens & _ & H).
  destruct tokens as [|t tokens]; [injection H as <-; by split|].
  apply bind_Ok in H as (key & _ & [= <-]).
  split; cbn [documents all_categories vocabulary].
  - intros c. rewrite elem_of_union, elem_of_singleton, Hc.
    setoid_rewrite elem_of_app. setoid_rewrite list_elem_of_singleton.
    split.
    + intros [->|[toks ?]]; eauto.
    + intros [toks [?|[= -> ->]]]; eauto.
  - intros w.
    rewrite !elem_of_union, elem_of_singleton, elem_of_list_to_set, Hv.
    setoid_rewrite elem_of_app. setoid_rewrite list_elem_of_singleton.
    split.
    + intros [[->|?]|(d & ? & ?)]; [| |by eauto].
      * exists (t :: tokens, key). split; [by right|by left].
      * exists (t :: tokens, key). split; [by right|by right].
    + intros (d & [?| ->] & Hw); [by eauto|].
      apply elem_of_cons in Hw as [->|?]; eauto.
  - intros d [?| ->%list_elem_of_singleton]%elem_of_app; [eauto|done].
Qed.

Lemma add_records_ok source_records st :
  add_records source_records = Ok st → corpus_ok st.
Proof.
  apply for_each_invariant with (P := corpus_ok).
  - intros ???. apply add_record_ok.
  - apply empty_corpus_ok.
Qed.

End IngestFacts.

Module CountFacts.
Import Json Train Spec.

Lemma incr_lookup `{Countable K} (k k' : K) (d : gmap K nat) :
  default 0 (incr k d !! k') =
  default 0 (d !! k') + (if decide (k' = k) then 1 else 0).
Proof.
  unfold incr. case_decide as Hk.
  - subst. by rewrite lookup_insert_eq.
  - rewrite lookup_insert_ne by done. lia.
Qed.

Section one_document.
Context (c : label).

Lemma count_token_class_count cs t c' :
  class_count (count_token c cs t) c' = class_count cs c'.
Proof. done. Qed.

Lemma count_token_total cs t c' :
  class_total (count_token c cs t) c' =
  class_total cs c' + (if decide (c' = c) then 1 else 0).
Proof. unfold class_total. simpl. apply incr_lookup. Qed.

Lemma count_token_word cs t c' w :
  class_word_count (count_token c cs t) c' w =
  class_word_count cs c' w
  + (if decide (c' = c) then if decide (t = w) then 1 else 0 else 0).
Proof.
  unfold class_word_count. simpl. case_decide as Hc.
  - subst. rewrite lookup_insert_eq. simpl. rewrite incr_lookup.
    destruct (decide (w = t)), (decide (t = w)); congruence || lia.
  - rewrite lookup_insert_ne by done. lia.
Qed.

Lemma count_tokens_class_count tokens cs c' :
  class_count (foldl (count_token c) cs tokens) c' = class_count cs c'.
Proof.
  revert cs. induction tokens as [|t tokens IH]; intros cs; simpl; [done|].
  by rewrite IH.
Qed.

Lemma count_tokens_total tokens cs c' :
  class_total (foldl (count_token c) cs tokens) c' =
  class_total cs c' + (if decide (c' = c) then length tokens else 0).
Proof.
  revert cs. induction tokens as [|t tokens IH]; intros cs; simpl.
  - case_decide; lia.
  - rewrite IH, count_token_total. case_decide; lia.
Qed.

Lemma count_tokens_word tokens cs c' w :
  class_word_count (foldl (count_token c) cs tokens) c' w =
  class_word_count cs c' w
  + (if decide (c' = c) then length (filter (λ t, t = w) tokens) else 0).
Proof.
  revert cs. induction tokens as [|t tokens IH]; intros cs; simpl.
  - case_decide; simpl; lia.
  - rewrite IH, count_token_word, filter_cons.
    case_decide; [|lia]. case_decide; simpl; lia.
Qed.
End one_document.

Lemma labeled_cons c (d : document) docs :
  labeled c (d :: docs) = if decide (d.2 = c) then d :: labeled c docs
                          else labeled c docs.
Proof. unfold labeled. by rewrite filter_cons. Qed.

Lemma count_cons c (d : document) docs :
  count c (d :: docs) = (if decide (d.2 = c) then 1 else 0) + count c docs.
Proof. unfold count. rewrite labeled_cons. by case_decide. Qed.

Lemma tokens_in_cons c (d : document) docs :
  tokens_in c (d :: docs) = if decide (d.2 = c) then d.1 ++ tokens_in c docs
                            else tokens_in c docs.
Proof. unfold tokens_in. rewrite labeled_cons. by case_decide. Qed.

Lemma total_tokens_cons c (d : document) docs :
  total_tokens c (d :: docs) =
  (if decide (d.2 = c) then length d.1 else 0) + total_tokens c docs.
Proof.
  unfold total_tokens. rewrite tokens_in_cons.
  case_decide; [by rewrite length_app|done].
Qed.

Lemma occurrences_cons w c (d : document) docs :
  occurrences w c (d :: docs) =
  (if decide (d.2 = c) then length (filter (λ t, t = w) d.1) else 0)
  + occurrences w c docs.
Proof.
  unfold occurrences. rewrite tokens_in_cons.
  case_decide; [by rewrite filter_app, length_app|done].
Qed.

(** The counters after the counting loop, started from any counters. *)
Lemma count_documents_from docs cs c :
  class_count (foldl count_document cs docs) c = class_count cs c + count c docs
  ∧ class_total (foldl count_document cs docs) c =
    class_total cs c + total_tokens c docs
  ∧ ∀ w, class_word_count (foldl count_document cs docs) c w =
         class_word_count cs c w + occurrences w c docs.
Proof.
  revert cs. induction docs as [|[tokens c'] docs IH]; intros cs.
  - unfold count, total_tokens, occurrences. simpl. auto with lia.
  - cbn [foldl]. destruct (IH (count_document cs (tokens, c'))) as (H1 & H2 & H3).
    rewrite H1, H2, count_cons, total_tokens_cons. unfold count_document.
    rewrite count_tokens_class_count, count_tokens_total.
    split; [|split].
    + unfold class_count at 1. simpl. rewrite incr_lookup. fold (class_count cs c).
      simpl. destruct (decide (c = c')), (decide (c' = c)); congruence || lia.
    + simpl. unfold class_total at 1. simpl. fold (class_total cs c).
      destruct (decide (c = c')), (decide (c' = c)); congruence || lia.
    + intros w. rewrite H3, occurrences_cons. unfold count_document.
      rewrite count_tokens_word. unfold class_word_count at 1. simpl. fold (class_word_count cs c w).
      destruct (decide (c = c')), (decide (c' = c)); congruence || lia.
Qed.

Lemma class_count_spec docs c :
  class_count (count_documents docs) c = count c docs.
Proof.
  unfold count_documents.
  by destruct (count_documents_from docs empty_counts c) as (-> & _).
Qed.

Lemma class_total_spec docs c :
  class_total (count_documents docs) c = total_tokens c docs.
Proof.
  unfold count_documents.
  by destruct (count_documents_from docs empty_counts c) as (_ & -> & _).
Qed.

Lemma class_word_count_spec docs c w :
  class_word_count (count_documents docs) c w = occurrences w c docs.
Proof.
  unfold count_documents.
  destruct (count_documents_from docs empty_counts c) as (_ & _ & H).
  by rewrite H.
Qed.

End CountFacts.

Module EstimateFacts.
Import Json Train Spec LoopFacts IngestFacts CountFacts.

(** *** Arithmetic of the two library calls *)

Lemma Q2R_ratio a b :
  0 < b → Q2R (Z.of_nat a # Pos.of_nat b) = (INR a / INR b)%R.
Proof.
  intros Hb. unfold Q2R. simpl. rewrite !INR_IZR_INZ.
  replace (Z.pos (Pos.of_nat b)) with (Z.of_nat b); [done|].
  destruct b as [|b]; lia.
Qed.

Lemma ratio_pos a b : 0 < a → 0 < b → (0 < INR a / INR b)%R.
Proof.
  intros Ha Hb. apply Rdiv_lt_0_compat; by apply lt_0_INR.
Qed.

(** [math.log(a / b)] for two positive counters. *)
Lemma log_ratio a b :
  0 < a → 0 < b →
  ∃ prob, true_div a b = Ok prob ∧ math_log prob = Ok (ln (INR a / INR b)).
Proof.
  intros Ha Hb. unfold true_div. destruct b as [|b]; [lia|].
  eexists. split; [done|]. unfold math_log.
  assert (Qle_bool (Z.of_nat a # Pos.of_nat (S b)) 0 = false) as ->.
  { apply not_true_is_false. intros Hle%Qle_bool_iff.
    unfold Qle in Hle. cbn [Qnum Qden] in Hle.
    rewrite Z.mul_0_l, Z.mul_1_r in Hle. lia. }
  by rewrite Q2R_ratio by lia.
Qed.

(** *** Sums over the members of a set *)

Lemma sum_list_fmap_add {A} (f g : A → nat) l :
  sum_list ((λ x, f x + g x) <$> l) = sum_list (f <$> l) + sum_list (g <$> l).
Proof. induction l as [|x l IH]; csimpl; lia. Qed.

Lemma sum_list_fmap_zero {A} (l : list A) : sum_list ((λ _, 0) <$> l) = 0.
Proof. induction l as [|x l IH]; csimpl; lia. Qed.

(** Among items listed once, exactly one is [x]. *)
Lemma sum_list_indicator `{EqDecision A} (x : A) l :
  NoDup l → x ∈ l →
  sum_list ((λ y, if decide (x = y) then 1 else 0) <$> l) = 1.
Proof.
  induction 1 as [|y l Hy Hl IH]; intros Hx.
  - by apply elem_of_nil in Hx.
  - csimpl. apply elem_of_cons in Hx. case_decide as Hxy.
    + subst. f_equal. clear IH Hx.
      induction l as [|z l IH]; csimpl; [done|].
      rewrite decide_False by (intros ->; apply Hy; left).
      apply IH; [|by apply NoDup_cons in Hl as [_ ?]].
      intros ?. apply Hy. by right.
    + destruct Hx as [?|Hx]; [done|]. by rewrite IH.
Qed.

(** Counting the items of [xs] value by value counts them all. *)
Lemma sum_list_filter_length `{EqDecision A} (xs l : list A) :
  NoDup l → (∀ x, x ∈ xs → x ∈ l) →
  sum_list ((λ y, length (filter (λ x, x = y) xs)) <$> l) = length xs.
Proof.
  intros Hl. induction xs as [|x xs IH]; intros Hxs.
  - apply sum_list_fmap_zero.
  - transitivity
      (sum_list ((λ y, (if decide (x = y) then 1 else 0)
                       + length (filter (λ x, x = y) xs)) <$> l)).
    + f_equal. apply list_fmap_ext. intros _ y _.
      rewrite filter_cons. by case_decide.
    + rewrite sum_list_fmap_add, sum_list_indicator, IH; try done.
      * intros; apply Hxs; by right.
      * apply Hxs; left.
Qed.

(** *** The tables of a corpus that the record loop built *)

Section corpus.
Context (st : corpus) (Hok : corpus_ok st).

Lemma count_pos c : c ∈ all_categories st → 0 < count c (documents st).
Proof.
  intros (tokens & Hd)%(ok_categories _ Hok). unfold count, labeled.
  assert ((tokens, c) ∈ filter (λ d : document, d.2 = c) (documents st)) as Hin
    by by apply list_elem_of_filter.
  destruct (filter _ _); [by apply elem_of_nil in Hin|simpl; lia].
Qed.

Lemma documents_pos c : c ∈ all_categories st → 0 < length (documents st).
Proof.
  intros (tokens & Hd)%(ok_categories _ Hok).
  destruct (documents st); [by apply elem_of_nil in Hd|simpl; lia].
Qed.

Lemma vocabulary_pos w : w ∈ vocabulary st → 0 < size (vocabulary st).
Proof.
  intros Hw. destruct (decide (size (vocabulary st) = 0)) as [H0|]; [|lia].
  apply size_empty_inv in H0. set_solver.
Qed.

(** The documents are as many as the counts of the observed categories
    add up to. *)
Lemma total_documents_length :
  total_documents (all_categories st) (documents st) = length (documents st).
Proof.
  unfold total_documents.
  assert (∀ d, d ∈ documents st → d.2 ∈ elements (all_categories st)) as Hall.
  { intros [tokens c] Hd. apply elem_of_elements, (ok_categories _ Hok). eauto. }
  pose proof (NoDup_elements (all_categories st)) as Hnd.
  revert Hall Hnd. generalize (elements (all_categories st)) as cats.
  generalize (documents st) as docs. clear.
  intros docs cats. induction docs as [|d docs IH]; intros Hall Hnd.
  - apply sum_list_fmap_zero.
  - transitivity
      (sum_list ((λ c, (if decide (d.2 = c) then 1 else 0) + count c docs)
                 <$> cats)).
    + f_equal. apply list_fmap_ext. intros _ c _. apply count_cons.
    + rewrite sum_list_fmap_add, sum_list_indicator, IH; try done.
      * intros; apply Hall; by right.
      * apply Hall; left.
Qed.

(** Every token occurrence of a category is an occurrence of a
    vocabulary token. *)
Lemma occurrences_sum c :
  sum_list ((λ w, occurrences w c (documents st)) <$> elements (vocabulary st))
  = total_tokens c (documents st).
Proof.
  unfold occurrences, total_tokens. apply sum_list_filter_length.
  - apply NoDup_elements.
  - intros t Ht. apply elem_of_elements, (ok_vocabulary _ Hok).
    unfold tokens_in, labeled in Ht.
    apply list_elem_of_In, in_concat in Ht as (tokens & Htokens & Ht).
    apply list_elem_of_In, list_elem_of_fmap in Htokens as (d & -> & Hd).
    apply list_elem_of_filter in Hd as [_ Hd].
    exists d. split; [done|]. by apply list_elem_of_In.
Qed.

Lemma prior_pos c : c ∈ all_categories st → (0 < prior c st)%R.
Proof.
  intros Hc. unfold prior. rewrite total_documents_length.
  apply ratio_pos; [by apply count_pos|by apply (documents_pos c)].
Qed.

Lemma smoothed_pos w c : w ∈ vocabulary st → (0 < smoothed w c st)%R.
Proof.
  intros Hw. unfold smoothed. apply ratio_pos; [lia|].
  pose proof (vocabulary_pos w Hw). lia.
Qed.

Lemma prior_step_ok log_priors c :
  c ∈ all_categories st →
  prior_step (count_documents (documents st)) (length (documents st))
    log_priors c = Ok (<[c := ln (prior c st)]> log_priors).
Proof.
  intros Hc. unfold prior_step, prior.
  rewrite class_count_spec, total_documents_length.
  destruct (log_ratio (count c (documents st)) (length (documents st)))
    as (prob & -> & Hlog); [by apply count_pos|by apply (documents_pos c)|].
  simpl. by rewrite Hlog.
Qed.

Lemma word_step_ok c row w :
  w ∈ vocabulary st →
  word_step (count_documents (documents st)) c
    (class_total (count_documents (documents st)) c + size (vocabulary st))
    row w = Ok (<[w := ln (smoothed w c st)]> row).
Proof.
  intros Hw. unfold word_step, smoothed.
  rewrite class_word_count_spec, class_total_spec.
  pose proof (vocabulary_pos w Hw).
  destruct (log_ratio (occurrences w c (documents st) + 1)
              (total_tokens c (documents st) + size (vocabulary st)))
    as (prob & -> & Hlog); [lia..|].
  simpl. by rewrite Hlog.
Qed.

Lemma likelihood_step_ok log_likelihoods c :
  likelihood_step (count_documents (documents st)) (vocabulary st)
    (size (vocabulary st)) log_likelihoods c =
  Ok (<[c := foldl (λ row w, <[w := ln (smoothed w c st)]> row) ∅
               (elements (vocabulary st))]> log_likelihoods).
Proof.
  unfold likelihood_step.
  rewrite (for_each_pure _ (λ row w, <[w := ln (smoothed w c st)]> row)); [done|].
  intros row w Hw%elem_of_elements. by apply word_step_ok.
Qed.

(** Estimation never raises on such a corpus, and fills the tables. *)
Lemma estimate_trained : ∃ m, estimate st = Ok m ∧ trained st m.
Proof.
  unfold estimate.
  rewrite (for_each_pure _ (λ (d : gmap label R) c, <[c := ln (prior c st)]> d))
    by (intros d c Hc%elem_of_elements; by apply prior_step_ok).
  simpl.
  rewrite (for_each_pure _
    (λ (d : gmap label (gmap string R)) c, <[c := foldl (λ row w, <[w := ln (smoothed w c st)]> row) ∅
                     (elements (vocabulary st))]> d))
    by (intros; apply likelihood_step_ok).
  simpl. eexists. split; [done|]. split; simpl; try done.
  - intros c. rewrite lookup_foldl_insert.
    destruct (decide (c ∈ all_categories st)) as [Hc|Hc].
    + by rewrite decide_True by by apply elem_of_elements.
    + by rewrite decide_False by by rewrite elem_of_elements.
  - intros c Hc. eexists. split.
    + rewrite (lookup_foldl_insert
        (λ c, foldl (λ row w, <[w := ln (smoothed w c st)]> row) ∅
                (elements (vocabulary st)))).
      by rewrite decide_True by by apply elem_of_elements.
    + intros w. rewrite (lookup_foldl_insert (λ w, ln (smoothed w c st))).
      destruct (decide (w ∈ vocabulary st)) as [Hw|Hw].
      * by rewrite decide_True by by apply elem_of_elements.
      * by rewrite decide_False by by rewrite elem_of_elements.
  - intros c Hc.
    rewrite (lookup_foldl_insert
      (λ c, foldl (λ row w, <[w := ln (smoothed w c st)]> row) ∅
              (elements (vocabulary st)))).
    by rewrite decide_False by by rewrite elem_of_elements.
Qed.

End corpus.

End EstimateFacts.

Module ClassifyFacts.
Import Json Train Spec LoopFacts IngestFacts CountFacts EstimateFacts.

(** Any score beats the initial bound. *)
Lemma exceeds_neg_inf score : exceeds score NegInf = true.
Proof. reflexivity. Qed.

Lemma exceeds_fin score b : exceeds score (Fin b) = true ↔ (b < score)%R.
Proof. unfold exceeds. destruct (Rlt_dec b score); split; done. Qed.

Lemma token_steps_table log_likelihoods c row tokens score :
  log_likelihoods !! c = Some row →
  for_each (token_step log_likelihoods c) score tokens =
  Ok (foldl (λ score token,
               match row !! token with
               | Some log_prob => (score + log_prob)%R
               | None => score
               end) score tokens).
Proof.
  intros Hrow. apply for_each_pure. intros s t _.
  unfold token_step, getitem. rewrite Hrow. simpl. by destruct (row !! t).
Qed.

(** With a prior and a row for [c], its score is computed without
    [KeyError]. *)
Lemma score_of_table m c tokens :
  is_Some (priors m !! c) → is_Some (likelihoods m !! c) →
  score_of m c tokens = Ok (table_score m c tokens).
Proof.
  intros [p Hp] [row Hrow]. unfold score_of, table_score, getitem.
  rewrite Hp, Hrow. simpl. by apply token_steps_table.
Qed.

Section loop.
Context (m : model) (tokens : list string) (f : label → R).

Lemma best_step_best seen best c :
  score_of m c tokens = Ok (f c) → best_of f seen best →
  ∃ best', best_step m tokens best c = Ok best'
           ∧ best_of f (seen ++ [c]) best'.
Proof.
  intros Hscore Hbest. unfold best_step. rewrite Hscore. simpl.
  destruct best as [[b|] [|s]]; simpl in *; try done.
  - destruct Hbest as (Hb & -> & Hmax).
    destruct (Rlt_dec (f b) (f c)) as [Hlt|Hge]; eexists; (split; [done|]).
    + simpl. split; [|split; [done|]].
      * apply elem_of_app. right. left.
      * intros c' [Hc'| ->%list_elem_of_singleton]%elem_of_app; [|lra].
        specialize (Hmax c' Hc'). lra.
    + simpl. split; [|split; [done|]].
      * apply elem_of_app. by left.
      * intros c' [Hc'| ->%list_elem_of_singleton]%elem_of_app; [|lra].
        by apply Hmax.
  - subst. eexists. split; [done|]. simpl. split; [left|split; [done|]].
    intros c' ->%list_elem_of_singleton. lra.
Qed.

Lemma best_loop cats seen best :
  (∀ c, c ∈ cats → score_of m c tokens = Ok (f c)) → best_of f seen best →
  ∃ best', for_each (best_step m tokens) best cats = Ok best'
           ∧ best_of f (seen ++ cats) best'.
Proof.
  revert seen best. induction cats as [|c cats IH]; intros seen best Hf Hbest.
  - exists best. by rewrite app_nil_r.
  - destruct (best_step_best seen best c) as (best1 & Hstep & Hbest1);
      [apply Hf; left|done|].
    destruct (IH (seen ++ [c]) best1) as (best' & Hloop & Hbest');
      [intros; apply Hf; by right|done|].
    exists best'. simpl. rewrite Hstep. simpl.
    by rewrite <- app_assoc in Hbest'.
Qed.

(** The loop over a non-empty set of categories ends with one of them,
    of greatest score. *)
Lemma classify_best (cats : gset label) :
  cats ≠ ∅ →
  (∀ c, c ∈ cats → score_of m c tokens = Ok (f c)) →
  ∃ c, classify m cats tokens = Ok (Some c) ∧ c ∈ cats
       ∧ ∀ c', c' ∈ cats → (f c' <= f c)%R.
Proof.
  intros Hne Hf. unfold classify.
  destruct (best_loop (elements cats) [] (None, NegInf)) as (best & -> & Hbest);
    [by intros c Hc%elem_of_elements; apply Hf|done|].
  simpl in *. destruct best as [[c|] [|s]]; simpl in *; try done.
  - destruct Hbest as (Hc%elem_of_elements & -> & Hmax).
    exists c. split; [done|]. split; [done|].
    intros c' Hc'. by apply Hmax, elem_of_elements.
  - by apply elements_empty_inv, leibniz_equiv in Hbest.
Qed.
End loop.

Lemma Rsum_cons x xs : Rsum (x :: xs) = (x + Rsum xs)%R.
Proof. reflexivity. Qed.

(** For a trained model the score read off the tables is the score of the
    specification. *)
Lemma table_score_spec st m c tokens :
  corpus_ok st → trained st m → c ∈ all_categories st →
  table_score m c tokens = score st c tokens.
Proof.
  intros Hok Hm Hc. unfold table_score, score.
  rewrite (trained_priors _ _ Hm), decide_True by done.
  destruct (trained_rows _ _ Hm c Hc) as (row & -> & Hrow). simpl.
  generalize (ln (prior c st)) as s.
  induction tokens as [|t tokens IH]; intros s.
  - cbn. lra.
  - cbn [foldl]. rewrite IH, Hrow, filter_cons.
    case_decide; [rewrite fmap_cons, Rsum_cons|]; lra.
Qed.

End ClassifyFacts.

Module RunFacts.
Import Json Input Train Spec LoopFacts IngestFacts EstimateFacts ClassifyFacts.

Lemma corpus_of_ok f st : corpus_of f = Ok st → corpus_ok st.
Proof.
  unfold corpus_of. intros (source_records & _ & Hst)%bind_Ok.
  by apply add_records_ok in Hst.
Qed.

(** Once the records are collected, the model is estimated and saved. *)
Lemma run_saves f st :
  corpus_of f = Ok st →
  ∃ m, output_file (train_naive_bayes f) = Some m ∧ trained st m.
Proof.
  intros Hst. destruct (estimate_trained st (corpus_of_ok f st Hst)) as (m & Hm & Htr).
  exists m. unfold train_naive_bayes, train. rewrite Hst. simpl.
  rewrite Hm. by simpl.
Qed.

Lemma no_documents st :
  corpus_ok st → documents st = [] →
  all_categories st = ∅ ∧ vocabulary st = ∅.
Proof.
  intros [Hc Hv _] Hdocs. rewrite Hdocs in Hc, Hv. split.
  - apply leibniz_equiv, elem_of_equiv_empty. intros c (? & ?%elem_of_nil)%Hc. done.
  - apply leibniz_equiv, elem_of_equiv_empty. intros w (? & ?%elem_of_nil & _)%Hv. done.
Qed.

Lemma row_dom st m c row :
  trained st m → c ∈ all_categories st → likelihoods m !! c = Some row →
  dom row = vocabulary st.
Proof.
  intros Hm Hc Hrow. destruct (trained_rows _ _ Hm c Hc) as (row' & Hrow' & Hw).
  assert (row' = row) as -> by congruence.
  apply leibniz_equiv. intros w. rewrite elem_of_dom, Hw.
  case_decide; split; (done || by intros []).
Qed.

End RunFacts.
(** * The properties of the specification *)

Import Tokenizer Json Input Train Spec Examples.
Import TokenizerFacts LoopFacts IngestFacts CountFacts EstimateFacts.
Import ClassifyFacts RunFacts.

(** Membership in a concrete set or list, by evaluation. *)
Ltac by_evaluation := apply (bool_decide_unpack _); vm_compute; exact I.

Lemma scenario_corpus_of : corpus_of scenario_file = Ok scenario_corpus.
Proof. vm_compute. reflexivity. Qed.

(** ** Empty corpus *)

(** C1, as the code has it: when no document is retained, estimation
    divides nothing, for no category was observed, and the run saves a
    model with no document, no token, no prior and no likelihood row. *)
Theorem C1_empty_corpus_is_saved f st :
  corpus_of f = Ok st → documents st = [] →
  output_file (train_naive_bayes f) = Some empty_model.
Proof.
  intros Hst Hdocs.
  destruct (no_documents st (corpus_of_ok f st Hst) Hdocs) as [Hcats Hvocab].
  unfold train_naive_bayes, train. rewrite Hst. simpl.
  unfold estimate. rewrite Hdocs, Hcats, Hvocab. reflexivity.
Qed.

Lemma C1_empty_corpus_is_saved_witness :
  corpus_of empty_file = Ok empty_corpus
  ∧ documents empty_corpus = []
  ∧ output_file (train_naive_bayes empty_file) = Some empty_model.
Proof.
  split; [reflexivity|]. split; [reflexivity|].
  apply (C1_empty_corpus_is_saved empty_file empty_corpus); reflexivity.
Defined.

(** C1 as stated fails on the empty file: the run saves the empty model,
    and ends in [ZeroDivisionError] when the accuracy is printed. *)
Lemma C1_empty_file_saves_and_divides_by_zero :
  train_naive_bayes empty_file =
  {| output_file := Some empty_model; finish := Raise ZeroDivisionError |}.
Proof. reflexivity. Qed.

(** ** Malformed lines *)

(** C2, as the code has it: in a file read line by line, the first line
    that is not JSON raises [JSONDecodeError]; nothing catches it, so the
    run ends there and saves no model. *)
Theorem C2_malformed_line_aborts f :
  ¬ batch_export f → Malformed ∈ lines f →
  load_data f = Raise JSONDecodeError
  ∧ train_naive_bayes f =
    {| output_file := None; finish := Raise JSONDecodeError |}.
Proof.
  intros Hnot Hin. pose proof (load_data_malformed f Hnot Hin) as Hload.
  split; [done|].
  unfold train_naive_bayes, train, corpus_of. by rewrite Hload.
Qed.

Lemma C2_malformed_line_aborts_witness :
  load_data broken_file = Raise JSONDecodeError
  ∧ train_naive_bayes broken_file =
    {| output_file := None; finish := Raise JSONDecodeError |}.
Proof.
  apply (C2_malformed_line_aborts broken_file).
  - intros (_ & members & samples & Hfull & _). discriminate Hfull.
  - right. left.
Defined.

(** C2 as stated fails: the malformed second line of [broken_file] is not
    skipped; the records of the other two lines are never collected. *)
Lemma C2_malformed_line_is_not_skipped :
  load_data broken_file ≠
  Ok [record "zomato order" "Food"; record "uber ride" "Transport"]
  ∧ load_data broken_file = Raise JSONDecodeError.
Proof. split; [discriminate|reflexivity]. Qed.

(** ** Field precedence *)

(** C3, as the code has it: the text of a record is its [merchant] field,
    and its [text] field only when [merchant] does not resolve; the label
    is [category], and [label] when [category] does not resolve; a record
    for which either is unresolved is dropped. *)
Theorem C3_merchant_before_text st members :
  add_record st (JObj members) =
  keep st (first_resolved members "merchant" "text")
          (first_resolved members "category" "label").
Proof. apply add_record_keep. Qed.

(** C3 as stated fails on a record with both fields: the document is made
    from [merchant], where the claim takes [text]. *)
Lemma C3_text_is_not_preferred :
  (∃ st, add_record empty_corpus (JObj both_fields) = Ok st
         ∧ documents st = [(["zomato"], LStr "Food")])
  ∧ (∃ st, keep empty_corpus (first_resolved both_fields "text" "merchant")
             (first_resolved both_fields "category" "label") = Ok st
           ∧ documents st = [(["uber"; "ride"], LStr "Food")]).
Proof. split; eexists; (split; [vm_compute; reflexivity|reflexivity]). Qed.

(** ** The likelihood table *)

(** C4: the saved model has, for every observed category [c] and every
    vocabulary token [w], the entry
    log((occurrences(w, c) + 1) / (totalTokens(c) + |Vocabulary|)). *)
Theorem C4_likelihood_table_is_dense f st c w :
  corpus_of f = Ok st → c ∈ all_categories st → w ∈ vocabulary st →
  ∃ m row,
    output_file (train_naive_bayes f) = Some m
    ∧ likelihoods m !! c = Some row
    ∧ row !! w =
      Some (ln (INR (occurrences w c (documents st) + 1)
                / INR (total_tokens c (documents st) + size (vocabulary st)))).
Proof.
  intros Hst Hc Hw. destruct (run_saves f st Hst) as (m & Hsaved & Hm).
  destruct (trained_rows _ _ Hm c Hc) as (row & Hrow & Hentries).
  exists m, row. split; [done|]. split; [done|].
  by rewrite Hentries, decide_True by done.
Qed.

Lemma C4_likelihood_table_is_dense_witness :
  ∃ m row,
    output_file (train_naive_bayes scenario_file) = Some m
    ∧ likelihoods m !! LStr "Food" = Some row
    ∧ row !! "uber" =
      Some (ln (INR (occurrences "uber" (LStr "Food")
                       (documents scenario_corpus) + 1)
                / INR (total_tokens (LStr "Food") (documents scenario_corpus)
                       + size (vocabulary scenario_corpus)))).
Proof.
  apply (C4_likelihood_table_is_dense scenario_file scenario_corpus).
  - vm_compute. reflexivity.
  - by_evaluation.
  - by_evaluation.
Defined.

(** ** The priors *)

(** C5: the log-prior of an observed category [c] is
    log(count(c) / totalDocuments), where totalDocuments, the sum of the
    counts of the observed categories, is the document count of the
    model. *)
Theorem C5_log_prior f st c :
  corpus_of f = Ok st → documents st ≠ [] → c ∈ all_categories st →
  ∃ m,
    output_file (train_naive_bayes f) = Some m
    ∧ doc_count m = total_documents (all_categories st) (documents st)
    ∧ priors m !! c =
      Some (ln (INR (count c (documents st))
                / INR (total_documents (all_categories st) (documents st)))).
Proof.
  intros Hst _ Hc. destruct (run_saves f st Hst) as (m & Hsaved & Hm).
  exists m. split; [done|]. split.
  - rewrite (trained_doc_count _ _ Hm).
    by rewrite (total_documents_length st (corpus_of_ok f st Hst)).
  - by rewrite (trained_priors _ _ Hm), decide_True by done.
Qed.

Lemma C5_log_prior_witness :
  ∃ m,
    output_file (train_naive_bayes scenario_file) = Some m
    ∧ doc_count m =
      total_documents (all_categories scenario_corpus)
        (documents scenario_corpus)
    ∧ priors m !! LStr "Food" =
      Some (ln (INR (count (LStr "Food") (documents scenario_corpus))
                / INR (total_documents (all_categories scenario_corpus)
                         (documents scenario_corpus)))).
Proof.
  apply (C5_log_prior scenario_file scenario_corpus).
  - vm_compute. reflexivity.
  - discriminate.
  - by_evaluation.
Defined.

(** ** Smoothing *)

Lemma Rsum_INR_div (g : string → nat) (d : R) l :
  Rsum ((λ w, INR (g w) / d)%R <$> l) = (INR (sum_list (g <$> l)) / d)%R.
Proof.
  induction l as [|w l IH].
  - unfold Rsum, Rdiv. simpl. ring.
  - rewrite !fmap_cons, Rsum_cons, IH. cbn [sum_list]. rewrite plus_INR.
    unfold Rdiv, Datatypes.id. ring.
Qed.

Lemma sum_list_fmap_one {A} (l : list A) : sum_list ((λ _, 1) <$> l) = length l.
Proof. induction l as [|x l IH]; csimpl; lia. Qed.

(** An observed category has a document, and so the vocabulary a token. *)
Lemma observed_vocabulary st c :
  corpus_ok st → c ∈ all_categories st → 0 < size (vocabulary st).
Proof.
  intros Hok (tokens & Hd)%(ok_categories _ Hok).
  pose proof (ok_tokens _ Hok _ Hd) as Hne. simpl in Hne.
  destruct tokens as [|t tokens]; [done|].
  apply (vocabulary_pos st Hok t), (ok_vocabulary _ Hok).
  exists (t :: tokens, c). split; [done|left].
Qed.

(** The smoothed estimates of a category add up to one. *)
Lemma smoothed_sum st c :
  corpus_ok st → c ∈ all_categories st →
  Rsum ((λ w, smoothed w c st) <$> elements (vocabulary st)) = 1%R.
Proof.
  intros Hok Hc. unfold smoothed.
  rewrite (Rsum_INR_div (λ w, occurrences w c (documents st) + 1)).
  rewrite sum_list_fmap_add, sum_list_fmap_one, (occurrences_sum st Hok).
  change (length (elements (vocabulary st))) with (size (vocabulary st)).
  apply Rdiv_diag, not_0_INR.
  pose proof (observed_vocabulary st c Hok Hc). lia.
Qed.

(** C7: for every observed category, the exponentials of the row of the
    category add up to 1. *)
Theorem C7_likelihoods_sum_to_one f st c :
  corpus_of f = Ok st → c ∈ all_categories st →
  ∃ m row,
    output_file (train_naive_bayes f) = Some m
    ∧ likelihoods m !! c = Some row
    ∧ dom row = vocabulary st
    ∧ mass row = 1%R.
Proof.
  intros Hst Hc. pose proof (corpus_of_ok f st Hst) as Hok.
  destruct (run_saves f st Hst) as (m & Hsaved & Hm).
  destruct (trained_rows _ _ Hm c Hc) as (row & Hrow & Hentries).
  pose proof (row_dom st m c row Hm Hc Hrow) as Hdom.
  exists m, row. do 3 (split; [done|]).
  unfold mass. rewrite Hdom, <- (smoothed_sum st c Hok Hc).
  f_equal. apply list_fmap_ext. intros _ w Hw%list_elem_of_lookup_2%elem_of_elements.
  rewrite Hentries, decide_True by done.
  by apply exp_ln, smoothed_pos.
Qed.

Lemma C7_likelihoods_sum_to_one_witness :
  ∃ m row,
    output_file (train_naive_bayes scenario_file) = Some m
    ∧ likelihoods m !! LStr "Transport" = Some row
    ∧ dom row = vocabulary scenario_corpus
    ∧ mass row = 1%R.
Proof.
  apply (C7_likelihoods_sum_to_one scenario_file scenario_corpus).
  - vm_compute. reflexivity.
  - by_evaluation.
Defined.

(** C8: in the row of an observed category [c], a vocabulary token that
    never occurs in [c] has probability 1 / (totalTokens(c) + |Vocabulary|),
    which is positive and below the probability of any token that occurs
    in [c]. *)
Theorem C8_unseen_token_is_positive_and_least f st c w0 w1 :
  corpus_of f = Ok st → c ∈ all_categories st →
  w0 ∈ vocabulary st → w1 ∈ vocabulary st →
  occurrences w0 c (documents st) = 0 →
  1 ≤ occurrences w1 c (documents st) →
  ∃ m row l0 l1,
    output_file (train_naive_bayes f) = Some m
    ∧ likelihoods m !! c = Some row
    ∧ row !! w0 = Some l0 ∧ row !! w1 = Some l1
    ∧ exp l0 =
      (1 / INR (total_tokens c (documents st) + size (vocabulary st)))%R
    ∧ (0 < exp l0)%R ∧ (exp l0 < exp l1)%R.
Proof.
  intros Hst Hc Hw0 Hw1 Hzero Hsome. pose proof (corpus_of_ok f st Hst) as Hok.
  destruct (run_saves f st Hst) as (m & Hsaved & Hm).
  destruct (trained_rows _ _ Hm c Hc) as (row & Hrow & Hentries).
  exists m, row, (ln (smoothed w0 c st)), (ln (smoothed w1 c st)).
  split; [done|]. split; [done|].
  split; [by rewrite Hentries, decide_True by done|].
  split; [by rewrite Hentries, decide_True by done|].
  rewrite !exp_ln by by apply smoothed_pos.
  pose proof (smoothed_pos st Hok w0 c Hw0) as Hpos.
  unfold smoothed in *. rewrite Hzero in *. simpl (INR (0 + 1)) in *.
  split; [done|]. split; [done|].
  apply Rmult_lt_compat_r.
  - apply Rinv_0_lt_compat, lt_0_INR.
    pose proof (vocabulary_pos st Hok w0 Hw0). lia.
  - replace 1%R with (INR 1) by done. apply lt_INR. lia.
Qed.

Lemma C8_unseen_token_is_positive_and_least_witness :
  ∃ m row l0 l1,
    output_file (train_naive_bayes scenario_file) = Some m
    ∧ likelihoods m !! LStr "Food" = Some row
    ∧ row !! "uber" = Some l0 ∧ row !! "zomato" = Some l1
    ∧ exp l0 =
      (1 / INR (total_tokens (LStr "Food") (documents scenario_corpus)
                + size (vocabulary scenario_corpus)))%R
    ∧ (0 < exp l0)%R ∧ (exp l0 < exp l1)%R.
Proof.
  apply (C8_unseen_token_is_positive_and_least scenario_file scenario_corpus).
  - vm_compute. reflexivity.
  - by_evaluation.
  - by_evaluation.
  - by_evaluation.
  - vm_compute. reflexivity.
  - vm_compute. lia.
Defined.

(** ** The classifier *)

Lemma trained_entries st m c :
  trained st m → c ∈ all_categories st →
  is_Some (priors m !! c) ∧ is_Some (likelihoods m !! c).
Proof.
  intros Hm Hc. split.
  - rewrite (trained_priors _ _ Hm), decide_True by done. eauto.
  - destruct (trained_rows _ _ Hm c Hc) as (row & -> & _). eauto.
Qed.

Lemma score_of_spec st m c tokens :
  corpus_ok st → trained st m → c ∈ all_categories st →
  score_of m c tokens = Ok (score st c tokens).
Proof.
  intros Hok Hm Hc. destruct (trained_entries st m c Hm Hc) as [Hp Hrow].
  rewrite (score_of_table m c tokens Hp Hrow).
  by rewrite (table_score_spec st m c tokens Hok Hm Hc).
Qed.

(** Without a vocabulary token, the score is the log-prior. *)
Lemma score_out_of_vocabulary st c tokens :
  Forall (λ t, t ∉ vocabulary st) tokens → score st c tokens = ln (prior c st).
Proof.
  intros Hout. unfold score.
  replace (filter (λ t, t ∈ vocabulary st) tokens) with (@nil string).
  - unfold Rsum. simpl. lra.
  - symmetry. induction Hout as [|t tokens Ht _ IH]; [done|].
    by rewrite filter_cons, decide_False.
Qed.

(** C6: for a trained model with a category, the score of each category
    is its log-prior plus the log-likelihoods of the tokens of the document
    that are in the vocabulary; the classifier returns a category whose
    score is greatest; for a document without a vocabulary token that is a
    category of greatest prior. *)
Theorem C6_classifier_returns_a_best_category f st tokens :
  corpus_of f = Ok st → all_categories st ≠ ∅ →
  ∃ m best,
    output_file (train_naive_bayes f) = Some m
    ∧ (∀ c, c ∈ all_categories st →
            score_of m c tokens = Ok (score st c tokens))
    ∧ classify m (all_categories st) tokens = Ok (Some best)
    ∧ best ∈ all_categories st
    ∧ (∀ c, c ∈ all_categories st →
            (score st c tokens <= score st best tokens)%R)
    ∧ (Forall (λ t, t ∉ vocabulary st) tokens →
       ∀ c, c ∈ all_categories st → (prior c st <= prior best st)%R).
Proof.
  intros Hst Hne. pose proof (corpus_of_ok f st Hst) as Hok.
  destruct (run_saves f st Hst) as (m & Hsaved & Hm).
  assert (∀ c, c ∈ all_categories st →
               score_of m c tokens = Ok (score st c tokens)) as Hscore
    by (intros c Hc; by apply score_of_spec).
  destruct (classify_best m tokens (λ c, score st c tokens)
              (all_categories st) Hne Hscore) as (best & Hbest & Hin & Hmax).
  exists m, best. do 5 (split; [done|]).
  intros Hout c Hc. specialize (Hmax c Hc). simpl in Hmax.
  rewrite !score_out_of_vocabulary in Hmax by done.
  destruct (Rle_or_lt (prior c st) (prior best st)) as [|Hlt]; [done|].
  apply ln_increasing in Hlt; [lra|by apply prior_pos].
Qed.

Lemma C6_classifier_returns_a_best_category_witness :
  ∃ m best,
    output_file (train_naive_bayes scenario_file) = Some m
    ∧ (∀ c, c ∈ all_categories scenario_corpus →
            score_of m c ["zomato"; "delivery"] =
            Ok (score scenario_corpus c ["zomato"; "delivery"]))
    ∧ classify m (all_categories scenario_corpus) ["zomato"; "delivery"] =
      Ok (Some best)
    ∧ best ∈ all_categories scenario_corpus
    ∧ (∀ c, c ∈ all_categories scenario_corpus →
            (score scenario_corpus c ["zomato"; "delivery"]
             <= score scenario_corpus best ["zomato"; "delivery"])%R)
    ∧ (Forall (λ t, t ∉ vocabulary scenario_corpus) ["zomato"; "delivery"] →
       ∀ c, c ∈ all_categories scenario_corpus →
            (prior c scenario_corpus <= prior best scenario_corpus)%R).
Proof.
  apply (C6_classifier_returns_a_best_category scenario_file scenario_corpus).
  - vm_compute. reflexivity.
  - intros Hempty. assert (LStr "Food" ∈ (∅ : gset label)) as Hin.
    { rewrite <- Hempty. by_evaluation. }
    by apply not_elem_of_empty in Hin.
Defined.

(** C10: with a category observed, the loop of the self-test ends with a
    prediction for any list of tokens, and the prediction is an observed
    category: the score of every category is computed and exceeds the
    initial bound. *)
Theorem C10_prediction_is_an_observed_category f st tokens :
  corpus_of f = Ok st → all_categories st ≠ ∅ →
  ∃ m best,
    output_file (train_naive_bayes f) = Some m
    ∧ (∀ c, c ∈ all_categories st →
            ∃ s, score_of m c tokens = Ok s ∧ exceeds s NegInf = true)
    ∧ classify m (all_categories st) tokens = Ok (Some best)
    ∧ best ∈ all_categories st.
Proof.
  intros Hst Hne. destruct (run_saves f st Hst) as (m & Hsaved & Hm).
  assert (∀ c, c ∈ all_categories st →
               score_of m c tokens = Ok (table_score m c tokens)) as Hscore.
  { intros c Hc. destruct (trained_entries st m c Hm Hc).
    by apply score_of_table. }
  destruct (classify_best m tokens (λ c, table_score m c tokens)
              (all_categories st) Hne Hscore) as (best & Hbest & Hin & _).
  exists m, best. split; [done|]. split; [|done].
  intros c Hc. exists (table_score m c tokens). split; [by apply Hscore|].
  apply exceeds_neg_inf.
Qed.

Lemma C10_prediction_is_an_observed_category_witness :
  ∃ m best,
    output_file (train_naive_bayes scenario_file) = Some m
    ∧ (∀ c, c ∈ all_categories scenario_corpus →
            ∃ s, score_of m c [] = Ok s ∧ exceeds s NegInf = true)
    ∧ classify m (all_categories scenario_corpus) [] = Ok (Some best)
    ∧ best ∈ all_categories scenario_corpus.
Proof.
  apply (C10_prediction_is_an_observed_category scenario_file scenario_corpus).
  - vm_compute. reflexivity.
  - intros Hempty. assert (LStr "Food" ∈ (∅ : gset label)) as Hin.
    { rewrite <- Hempty. by_evaluation. }
    by apply not_elem_of_empty in Hin.
Defined.

(** ** The tokenizer *)

(** C9: tokenizing the space-joined tokens of a string gives the tokens
    again. *)
Theorem C9_tokenize_is_idempotent s :
  tokenize (join (tokenize s)) = tokenize s.
Proof.
  pose proof (tokenize_tokens s) as Htokens.
  unfold tokenize at 1. rewrite lower_fixed by by apply join_chars.
  by apply findall_join.
Qed.

(** ** The self-test and the end of the run *)

(** The self-test never raises on a trained model. *)
Lemma self_test_total st m :
  corpus_ok st → trained st m → ∃ correct, self_test m st = Ok correct.
Proof.
  intros Hok Hm. unfold self_test.
  assert (∀ d, d ∈ documents st → d ∈ documents st) as Hdocs by done.
  revert Hdocs. generalize 0 as correct.
  generalize (documents st) at 1 3 as docs.
  induction docs as [|[tokens true_cat] docs IH]; intros correct Hdocs.
  - by exists correct.
  - assert (all_categories st ≠ ∅) as Hne.
    { assert (true_cat ∈ all_categories st) as Hin
        by (apply (ok_categories _ Hok); exists tokens; apply Hdocs; left).
      intros Hempty. rewrite Hempty in Hin. by apply not_elem_of_empty in Hin. }
    destruct (classify_best m tokens (λ c, table_score m c tokens)
                (all_categories st) Hne) as (best & Hbest & _).
    { intros c Hc. destruct (trained_entries st m c Hm Hc).
      by apply score_of_table. }
    simpl. rewrite Hbest. simpl. apply IH. intros d Hd. apply Hdocs. by right.
Qed.

(** With a document retained, the run ends normally: it prints the
    training accuracy. *)
Lemma run_finishes f st :
  corpus_of f = Ok st → documents st ≠ [] →
  ∃ accuracy, finish (train_naive_bayes f) = Ok accuracy.
Proof.
  intros Hst Hdocs. pose proof (corpus_of_ok f st Hst) as Hok.
  destruct (estimate_trained st Hok) as (m & Hm & Htr).
  destruct (self_test_total st m Hok Htr) as (correct & Hcorrect).
  unfold train_naive_bayes, train. rewrite Hst. simpl. rewrite Hm. simpl.
  rewrite Hcorrect. simpl. rewrite (trained_doc_count _ _ Htr).
  destruct (documents st); [done|]. simpl. eauto.
Qed.

(** ** The scenario of the specification *)

Lemma scenario_tokens : tokenize "zomato delivery" = ["zomato"; "delivery"].
Proof. reflexivity. Qed.

Lemma scenario_prior_food :
  ∃ m, output_file (train_naive_bayes scenario_file) = Some m
       ∧ priors m !! LStr "Food" = Some (ln (2 / 3))
       ∧ priors m !! LStr "Transport" = Some (ln (1 / 3)).
Proof.
  destruct (run_saves scenario_file scenario_corpus scenario_corpus_of)
    as (m & Hsaved & Hm).
  exists m. split; [done|].
  rewrite !(trained_priors _ _ Hm). unfold prior.
  assert (total_documents (all_categories scenario_corpus)
            (documents scenario_corpus) = 3) as -> by (vm_compute; reflexivity).
  assert (count (LStr "Food") (documents scenario_corpus) = 2) as ->
    by reflexivity.
  assert (count (LStr "Transport") (documents scenario_corpus) = 1) as ->
    by reflexivity.
  split.
  - rewrite decide_True by by_evaluation. do 3 f_equal; simpl; lra.
  - rewrite decide_True by by_evaluation. do 3 f_equal; simpl; lra.
Qed.

(** Food has the greater score for "zomato delivery". *)
Lemma scenario_scores :
  (score scenario_corpus (LStr "Transport") ["zomato"; "delivery"]
   < score scenario_corpus (LStr "Food") ["zomato"; "delivery"])%R.
Proof.
  unfold score.
  assert (filter (λ t, t ∈ vocabulary scenario_corpus) ["zomato"; "delivery"]
          = ["zomato"]) as -> by (vm_compute; reflexivity).
  rewrite !list_fmap_singleton. unfold Rsum, prior, smoothed. cbn [foldr].
  assert (total_documents (all_categories scenario_corpus)
            (documents scenario_corpus) = 3) as -> by (vm_compute; reflexivity).
  assert (size (vocabulary scenario_corpus) = 4) as -> by (vm_compute; reflexivity).
  assert (count (LStr "Food") (documents scenario_corpus) = 2) as ->
    by reflexivity.
  assert (count (LStr "Transport") (documents scenario_corpus) = 1) as ->
    by reflexivity.
  assert (occurrences "zomato" (LStr "Food") (documents scenario_corpus) = 2)
    as -> by (vm_compute; reflexivity).
  assert (occurrences "zomato" (LStr "Transport") (documents scenario_corpus) = 0)
    as -> by (vm_compute; reflexivity).
  assert (total_tokens (LStr "Food") (documents scenario_corpus) = 4)
    as -> by (vm_compute; reflexivity).
  assert (total_tokens (LStr "Transport") (documents scenario_corpus) = 2)
    as -> by (vm_compute; reflexivity).
  rewrite !Rplus_0_r, <- !ln_mult by (simpl; lra).
  apply ln_increasing; simpl; lra.
Qed.

(** Classifying "zomato delivery" returns Food. *)
Lemma scenario_classification :
  ∃ m, output_file (train_naive_bayes scenario_file) = Some m
       ∧ classify m (all_categories scenario_corpus) (tokenize "zomato delivery")
         = Ok (Some (LStr "Food")).
Proof.
  rewrite scenario_tokens.
  pose proof (corpus_of_ok _ _ scenario_corpus_of) as Hok.
  destruct (run_saves scenario_file scenario_corpus scenario_corpus_of)
    as (m & Hsaved & Hm).
  exists m. split; [done|].
  destruct (classify_best m ["zomato"; "delivery"]
              (λ c, score scenario_corpus c ["zomato"; "delivery"])
              (all_categories scenario_corpus))
    as (best & -> & Hin & Hmax).
  - intros Hempty. assert (LStr "Food" ∈ (∅ : gset label)) as Hfood.
    { rewrite <- Hempty. by_evaluation. }
    by apply not_elem_of_empty in Hfood.
  - intros c Hc. by apply score_of_spec.
  - do 2 f_equal.
    apply elem_of_union in Hin as [Hin|Hin]; apply elem_of_singleton in Hin;
      [done|subst].
    assert (LStr "Food" ∈ all_categories scenario_corpus) as Hfood
      by by_evaluation.
    specialize (Hmax _ Hfood). simpl in Hmax.
    pose proof scenario_scores. lra.
Qed.

(** * Further properties of the code *)

(** ** [tokenize] *)

Module TextFacts.
Import Tokenizer Text TokenizerFacts.

Lemma flatten_app ts us : flatten (ts ++ us) = flatten ts +:+ flatten us.
Proof.
  induction ts as [|t ts IH]; [done|].
  cbn [flatten foldr app]. fold (flatten (ts ++ us)). fold (flatten ts).
  rewrite IH. clear. induction t as [|c t IH]; [done|].
  by rewrite !app_cons, IH.
Qed.

Lemma flatten_emit run : flatten (emit run) = run.
Proof. destruct run; [done|]. cbn. by rewrite app_empty_r. Qed.

Lemma app_assoc_string s t u : (s +:+ t) +:+ u = s +:+ (t +:+ u).
Proof. induction s as [|c s IH]; [done|]. by rewrite !app_cons, IH. Qed.

Lemma flatten_findall run text :
  flatten (findall run text) = run +:+ keep_chars is_alnum text.
Proof.
  revert run. induction text as [|c text IH]; intros run; simpl.
  - by rewrite flatten_emit, app_empty_r.
  - destruct (is_alnum c).
    + by rewrite IH, app_snoc.
    + by rewrite flatten_app, flatten_emit, IH.
Qed.

Lemma flatten_tokenize s :
  flatten (tokenize s) = keep_chars is_alnum (lower s).
Proof. unfold tokenize. by rewrite flatten_findall. Qed.

Lemma flatten_tokens_empty ts :
  Forall is_token ts → flatten ts = EmptyString → ts = [].
Proof.
  intros Hts. destruct Hts as [|t ts' [Hne _] _]; [done|]. cbn. intros Happ.
  by apply app_is_empty in Happ.
Qed.

Lemma lower_app s t : lower (s +:+ t) = lower s +:+ lower t.
Proof.
  induction s as [|c s IH]; [done|].
  rewrite app_cons. simpl. by rewrite IH.
Qed.

Lemma lower_char_lower c : lower_char (lower_char c) = lower_char c.
Proof. destruct c as [[] [] [] [] [] [] [] []]; reflexivity. Qed.

Lemma lower_lower s : lower (lower s) = lower s.
Proof.
  induction s as [|c s IH]; [done|]. simpl. by rewrite lower_char_lower, IH.
Qed.

(** A character outside the class ends the match in progress and starts
    the scan afresh. *)
Lemma findall_split run s c t :
  is_alnum c = false →
  findall run (s +:+ String c t) = findall run s ++ findall EmptyString t.
Proof.
  intros Hc. revert run. induction s as [|d s IH]; intros run.
  - simpl. by rewrite Hc.
  - rewrite app_cons. simpl. destruct (is_alnum d).
    + apply IH.
    + by rewrite IH, app_assoc.
Qed.

End TextFacts.

Import Text TextFacts.

(** Every token is a non-empty string of lower-case ASCII letters and
    digits. *)
Theorem tokens_are_lowercase_alnum s : Forall is_token (tokenize s).
Proof. unfold tokenize. by apply findall_tokens. Qed.

(** Tokenizing keeps the letters and digits of the lower-cased text, in
    order, and nothing else: the tokens put end to end are those
    characters. *)
Theorem tokens_keep_letters_and_digits s :
  flatten (tokenize s) = keep_chars is_alnum (lower s).
Proof. apply flatten_tokenize. Qed.


(** A text and its lower-case form have the same tokens. *)
Theorem tokenize_ignores_case s : tokenize (lower s) = tokenize s.
Proof. unfold tokenize. by rewrite lower_lower. Qed.

(** A character that is no letter and no digit separates: the tokens of a
    text around it are the tokens before it followed by the tokens after
    it. *)
Theorem tokenize_splits_at_separator s c t :
  is_alnum (lower_char c) = false →
  tokenize (s +:+ String c t) = tokenize s ++ tokenize t.
Proof.
  intros Hc. unfold tokenize. rewrite lower_app. simpl.
  by apply findall_split.
Qed.

Lemma tokenize_splits_at_separator_witness :
  tokenize ("Uber" +:+ String "-" "RIDE 42") =
  tokenize "Uber" ++ tokenize "RIDE 42".
Proof. apply (tokenize_splits_at_separator "Uber" "-" "RIDE 42"). reflexivity. Defined.

(** ** The record loop *)

Module RecordFacts.
Import Tokenizer Json Input Train Spec Shapes LoopFacts IngestFacts.

(** The first turn that raises ends the loop with its exception. *)
Lemma for_each_raises {A S} (body : S → A → result S) s xs s' x ys e :
  for_each body s xs = Ok s' → body s' x = Raise e →
  for_each body s (xs ++ x :: ys) = Raise e.
Proof.
  intros Hxs Hx. rewrite for_each_app, Hxs. simpl. by rewrite Hx.
Qed.

Lemma add_record_non_object st v :
  is_object v = false → add_record st v = Raise AttributeError.
Proof. by destruct v. Qed.

Lemma tokenize_value_non_string v :
  is_string v = false → tokenize_value v = Raise AttributeError.
Proof. by destruct v. Qed.

Lemma hash_key_unhashable v : hashable v = false → hash_key v = Raise TypeError.
Proof. by destruct v. Qed.

Lemma hash_key_hashable v : hashable v = true → ∃ k, hash_key v = Ok k.
Proof. destruct v; simpl; by eauto. Qed.

(** A field that resolves has a true value. *)
Lemma resolved_truthy members key v :
  resolved members key = Some v → truthy v = true.
Proof.
  unfold resolved. destruct (assoc key members) as [v'|]; simpl; [|done].
  destruct (truthy v') eqn:Hv; [|done]. by intros [= <-].
Qed.

Lemma first_resolved_truthy members primary fallback v :
  first_resolved members primary fallback = Some v → truthy v = true.
Proof.
  unfold first_resolved.
  destruct (resolved members primary) as [v'|] eqn:Hp.
  - intros [= <-]. by apply resolved_truthy in Hp.
  - apply resolved_truthy.
Qed.

(** One turn adds at most one document, at the end. *)
Lemma add_record_documents st record st' :
  add_record st record = Ok st' →
  documents st' = documents st
  ∨ ∃ d, documents st' = documents st ++ [d] ∧ Forall is_token d.1.
Proof.
  unfold add_record.
  intros (text & _ & H)%bind_Ok. apply bind_Ok in H as (category & _ & H).
  destruct (negb (truthy category) || negb (truthy text)).
  { injection H as <-. by left. }
  apply bind_Ok in H as (tokens & Htokens & H).
  assert (Forall is_token tokens) as Hall.
  { destruct text; try done. injection Htokens as <-.
    apply TokenizerFacts.tokenize_tokens. }
  destruct tokens as [|t tokens]; [injection H as <-; by left|].
  apply bind_Ok in H as (key & _ & [= <-]).
  right. by eexists.
Qed.

Lemma add_records_from_length source_records st st' :
  for_each add_record st source_records = Ok st' →
  length (documents st') ≤ length (documents st) + length source_records.
Proof.
  revert st. induction source_records as [|r rs IH]; intros st; simpl.
  - intros [= <-]. lia.
  - intros (st1 & Hr & Hrs)%bind_Ok. apply IH in Hrs.
    apply add_record_documents in Hr as [Hr|(d & Hr & _)]; rewrite Hr in Hrs;
      [|rewrite length_app in Hrs; simpl in Hrs]; lia.
Qed.

Lemma add_records_tokens source_records st :
  add_records source_records = Ok st →
  Forall (λ d, Forall is_token d.1) (documents st).
Proof.
  apply (for_each_invariant
           (λ st, Forall (λ d, Forall is_token d.1) (documents st))).
  - intros s r s' Hs Hr.
    apply add_record_documents in Hr as [->|(d & -> & Hd)]; [done|].
    apply Forall_app. split; [done|]. by constructor.
  - constructor.
Qed.

End RecordFacts.

Import Shapes RecordFacts.
Import Cases.

(** A source record that is not an object ends the run with
    [AttributeError]: no model is saved, whatever the records before it
    (which were collected) and after it. *)
Theorem non_object_record_aborts f before v after st :
  load_data f = Ok (before ++ v :: after) →
  add_records before = Ok st →
  is_object v = false →
  train_naive_bayes f =
  {| output_file := None; finish := Raise AttributeError |}.
Proof.
  intros Hload Hbefore Hv. unfold train_naive_bayes, train, corpus_of.
  rewrite Hload. simpl. unfold add_records.
  rewrite (for_each_raises _ _ _ st v after AttributeError); [done|done|].
  by apply add_record_non_object.
Qed.

Lemma non_object_record_aborts_witness :
  train_naive_bayes number_file =
  {| output_file := None; finish := Raise AttributeError |}.
Proof.
  eapply (non_object_record_aborts number_file
            [record "zomato order" "Food"] (JNum 5) []).
  - reflexivity.
  - vm_compute. reflexivity.
  - reflexivity.
Defined.

(** A record with a label whose text resolves to a value that is not a
    string raises [AttributeError]: the tokenizer is called on it. *)
Theorem non_string_text_raises st members text :
  first_resolved members "merchant" "text" = Some text →
  is_string text = false →
  is_Some (first_resolved members "category" "label") →
  add_record st (JObj members) = Raise AttributeError.
Proof.
  intros Htext Hstr [category Hcat]. rewrite add_record_keep, Htext, Hcat.
  simpl. by rewrite tokenize_value_non_string.
Qed.

Lemma non_string_text_raises_witness :
  add_record empty_corpus (JObj numeric_merchant) = Raise AttributeError.
Proof.
  apply (non_string_text_raises empty_corpus numeric_merchant (JNum 42)).
  - reflexivity.
  - reflexivity.
  - by eexists.
Defined.

(** A record whose text has a token and whose label resolves to a list or
    an object raises [TypeError]: the label cannot enter the set of
    categories. *)
Theorem unhashable_label_raises st members s category :
  first_resolved members "merchant" "text" = Some (JStr s) →
  tokenize s ≠ [] →
  first_resolved members "category" "label" = Some category →
  hashable category = false →
  add_record st (JObj members) = Raise TypeError.
Proof.
  intros Htext Htokens Hcat Hhash. rewrite add_record_keep, Htext, Hcat.
  simpl. destruct (tokenize s); [done|].
  by rewrite hash_key_unhashable.
Qed.

Lemma unhashable_label_raises_witness :
  add_record empty_corpus (JObj list_category) = Raise TypeError.
Proof.
  apply (unhashable_label_raises empty_corpus list_category "zomato"
           (JArr [JStr "Food"])).
  - reflexivity.
  - discriminate.
  - reflexivity.
  - reflexivity.
Defined.

(** A record whose text has no letter and no digit is dropped, whatever
    its label: the corpus is unchanged and nothing is raised. *)
Theorem text_without_token_is_dropped st members s :
  first_resolved members "merchant" "text" = Some (JStr s) →
  keep_chars is_alnum (lower s) = EmptyString →
  add_record st (JObj members) = Ok st.
Proof.
  intros Htext Hnone. rewrite add_record_keep, Htext.
  destruct (first_resolved members "category" "label"); [|done].
  simpl. rewrite <- flatten_tokenize in Hnone.
  by rewrite (flatten_tokens_empty _ (TokenizerFacts.tokenize_tokens s) Hnone).
Qed.

Lemma text_without_token_is_dropped_witness :
  add_record scenario_corpus (JObj punctuation_merchant) = Ok scenario_corpus.
Proof.
  apply (text_without_token_is_dropped scenario_corpus punctuation_merchant
           "--- !!"); reflexivity.
Defined.

(** What the record loop leaves: the categories are the labels of the
    retained documents, the vocabulary is the tokens of the retained
    documents, and every retained document has a token, each one a
    non-empty string of lower-case letters and digits. *)
Theorem retained_documents_invariant f st :
  corpus_of f = Ok st →
  (∀ c, c ∈ all_categories st ↔ ∃ tokens, (tokens, c) ∈ documents st)
  ∧ (∀ w, w ∈ vocabulary st ↔ ∃ d, d ∈ documents st ∧ w ∈ d.1)
  ∧ (∀ d, d ∈ documents st → d.1 ≠ [] ∧ Forall is_token d.1).
Proof.
  unfold corpus_of. intros (source_records & _ & Hst)%bind_Ok.
  destruct (add_records_ok _ _ Hst) as [Hc Hv Ht].
  split; [done|]. split; [done|]. intros d Hd. split; [by apply Ht|].
  pose proof (add_records_tokens _ _ Hst) as Hall.
  by apply (proj1 (Forall_forall _ _) Hall).
Qed.

Lemma retained_documents_invariant_witness :
  (∀ c, c ∈ all_categories scenario_corpus
        ↔ ∃ tokens, (tokens, c) ∈ documents scenario_corpus)
  ∧ (∀ w, w ∈ vocabulary scenario_corpus
          ↔ ∃ d, d ∈ documents scenario_corpus ∧ w ∈ d.1)
  ∧ (∀ d, d ∈ documents scenario_corpus → d.1 ≠ [] ∧ Forall is_token d.1).
Proof.
  apply (retained_documents_invariant scenario_file scenario_corpus).
  vm_compute. reflexivity.
Defined.

(** The retained documents are at most as many as the source records. *)
Theorem documents_at_most_records f source_records st :
  load_data f = Ok source_records → corpus_of f = Ok st →
  length (documents st) ≤ length source_records.
Proof.
  intros Hload. unfold corpus_of. rewrite Hload. simpl. intros Hst.
  by apply add_records_from_length in Hst.
Qed.

Lemma documents_at_most_records_witness :
  length (documents scenario_corpus) ≤ length (parsed_values (lines scenario_file)).
Proof.
  apply (documents_at_most_records scenario_file).
  - reflexivity.
  - vm_compute. reflexivity.
Defined.

(** ** Loading *)

Module LoadFacts.
Import Json Input Train Spec Shapes LoopFacts IngestFacts RecordFacts.

Lemma senders_of_objects samples :
  Forall (λ r, is_object r = true) samples →
  ∃ senders, senders_of samples = Ok senders
    ∧ ∀ s, s ∈ senders ↔
           ∃ members, JObj members ∈ samples
                      ∧ assoc "sender" members = Some s ∧ truthy s = true.
Proof.
  induction 1 as [|r samples Hr _ (senders & IH & Hin)].
  - exists []. split; [done|]. intros s. split.
    + by intros ?%elem_of_nil.
    + by intros (? & ?%elem_of_nil & _).
  - destruct r as [| | | | |members]; try done. simpl. rewrite IH. simpl.
    destruct (assoc "sender" members) as [sender|] eqn:Hsender; simpl.
    + destruct (truthy sender) eqn:Htrue; eexists; (split; [done|]); intros s.
      * rewrite elem_of_cons, Hin. split.
        -- intros [->|(ms & Hms & ?)].
           ++ exists members. split; [left|done].
           ++ exists ms. split; [by right|done].
        -- intros (ms & [[= ->]|Hms]%elem_of_cons & Hs & Ht).
           ++ left. congruence.
           ++ right. eauto.
      * rewrite Hin. split.
        -- intros (ms & Hms & ?). exists ms. split; [by right|done].
        -- intros (ms & [[= ->]|Hms]%elem_of_cons & Hs & Ht).
           ++ congruence.
           ++ eauto.
    + exists senders. split; [done|]. intros s. rewrite Hin. split.
      * intros (ms & Hms & ?). exists ms. split; [by right|done].
      * intros (ms & [[= ->]|Hms]%elem_of_cons & Hs & Ht).
        -- congruence.
        -- eauto.
Qed.

(** The reading stops at the first sample that is not an object. *)
Lemma senders_of_non_object before v after :
  Forall (λ r, is_object r = true) before → is_object v = false →
  senders_of (before ++ v :: after) = Raise AttributeError.
Proof.
  intros Hbefore Hv. induction Hbefore as [|r before Hr _ IH]; simpl.
  - by destruct v.
  - destruct r; try done. simpl. by rewrite IH.
Qed.

Lemma set_of_from_hashable values (s : gset label) :
  Forall (λ v, hashable v = true) values →
  ∃ s', for_each (λ (s : gset label) v, k ← hash_key v; Ok ({[k]} ∪ s)) s values = Ok s'.
Proof.
  intros Hall. revert s. induction Hall as [|v values Hv _ IH]; intros s; simpl.
  - by eexists.
  - destruct (hash_key_hashable v Hv) as (k & ->). simpl. apply IH.
Qed.

Lemma set_of_from_unhashable values (s : gset label) v :
  v ∈ values → hashable v = false →
  for_each (λ (s : gset label) v, k ← hash_key v; Ok ({[k]} ∪ s)) s values = Raise TypeError.
Proof.
  intros Hin Hv. revert s. induction values as [|w values IH]; intros s.
  - by apply elem_of_nil in Hin.
  - simpl. destruct (hashable w) eqn:Hw.
    + destruct (hash_key_hashable w Hw) as (k & ->). simpl. apply IH.
      apply elem_of_cons in Hin as [->|?]; [congruence|done].
    + by rewrite hash_key_unhashable.
Qed.

End LoadFacts.

Import LoadFacts.

(** A file read line by line in which every line is blank or parses loads
    as the values of its lines, in file order. *)
Theorem well_formed_lines_load f :
  ¬ batch_export f → Malformed ∉ lines f →
  load_data f = Ok (parsed_values (lines f)).
Proof. apply load_data_well_formed. Qed.

Lemma well_formed_lines_load_witness :
  load_data scenario_file = Ok (parsed_values (lines scenario_file)).
Proof.
  apply (well_formed_lines_load scenario_file).
  - intros (_ & members & samples & Hfull & _). discriminate Hfull.
  - intros Hin. repeat (apply elem_of_cons in Hin as [Hin|Hin]; [discriminate|]).
    by apply elem_of_nil in Hin.
Defined.

(** A batch export whose samples are objects with usable senders loads as
    its list of samples; the lines of the file are not read one by one. *)
Theorem batch_export_loads_samples f members samples :
  first_char f = Some "{"%char → full_json f = Some members →
  assoc "samples" members = Some (JArr samples) →
  Forall (λ r, sample_ok r = true) samples →
  load_data f = Ok samples.
Proof.
  intros Hfirst Hfull Hsamples Hok. unfold load_data.
  rewrite Hfirst, bool_decide_eq_true_2, Hfull, Hsamples by done.
  destruct (senders_of_objects samples) as (senders & -> & Hin).
  { eapply Forall_impl; [exact Hok|]. intros r. by destruct r. }
  simpl. unfold set_of.
  destruct (set_of_from_hashable senders ∅) as (s' & ->); [|done].
  apply Forall_forall. intros s (ms & Hms & Hs & Ht)%Hin.
  apply (proj1 (Forall_forall _ _) Hok) in Hms. simpl in Hms.
  rewrite Hs, Ht in Hms. done.
Qed.

Lemma batch_export_loads_samples_witness :
  load_data export_file = Ok export_samples.
Proof.
  eapply (batch_export_loads_samples export_file).
  - reflexivity.
  - reflexivity.
  - reflexivity.
  - repeat constructor.
Defined.

(** A batch export with a sample that is not an object does not load:
    reading the senders raises [AttributeError]. *)
Theorem batch_export_non_object_sample f members before v after :
  first_char f = Some "{"%char → full_json f = Some members →
  assoc "samples" members = Some (JArr (before ++ v :: after)) →
  Forall (λ r, is_object r = true) before → is_object v = false →
  load_data f = Raise AttributeError.
Proof.
  intros Hfirst Hfull Hsamples Hbefore Hv. unfold load_data.
  rewrite Hfirst, bool_decide_eq_true_2, Hfull, Hsamples by done.
  by rewrite senders_of_non_object.
Qed.

Lemma batch_export_non_object_sample_witness :
  load_data export_with_string = Raise AttributeError.
Proof.
  eapply (batch_export_non_object_sample export_with_string _
            [record "zomato order" "Food"] (JStr "uber ride") []).
  - reflexivity.
  - reflexivity.
  - reflexivity.
  - repeat constructor.
  - reflexivity.
Defined.

(** A batch export of objects, one of which has a list or an object as its
    sender, does not load: counting the distinct senders raises
    [TypeError]. *)
Theorem batch_export_unhashable_sender f members samples r :
  first_char f = Some "{"%char → full_json f = Some members →
  assoc "samples" members = Some (JArr samples) →
  Forall (λ r, is_object r = true) samples →
  r ∈ samples → unhashable_sender r = true →
  load_data f = Raise TypeError.
Proof.
  intros Hfirst Hfull Hsamples Hobjects Hr Hbad. unfold load_data.
  rewrite Hfirst, bool_decide_eq_true_2, Hfull, Hsamples by done.
  destruct (senders_of_objects samples Hobjects) as (senders & -> & Hin).
  simpl. unfold set_of.
  destruct r as [| | | | |ms]; try done. simpl in Hbad.
  destruct (assoc "sender" ms) as [sender|] eqn:Hsender; [|done].
  apply andb_true_iff in Hbad as [Htrue Hhash%negb_true_iff].
  rewrite (set_of_from_unhashable senders ∅ sender); [done| |done].
  apply Hin. eauto.
Qed.

Lemma batch_export_unhashable_sender_witness :
  load_data export_with_list_sender = Raise TypeError.
Proof.
  eapply (batch_export_unhashable_sender export_with_list_sender _ _
            (JObj [("merchant", JStr "uber ride");
                   ("category", JStr "Transport");
                   ("sender", JArr [JStr "UBER"])])).
  - reflexivity.
  - reflexivity.
  - reflexivity.
  - repeat constructor.
  - right. left.
  - reflexivity.
Defined.

(** ** The saved model *)

Module ModelFacts.
Import Json Input Train Spec Tables.
Import LoopFacts IngestFacts CountFacts EstimateFacts ClassifyFacts RunFacts.

Lemma Rsum_INR_ratio {A} (g : A → nat) (d : R) l :
  Rsum ((λ x, INR (g x) / d)%R <$> l) = (INR (sum_list (g <$> l)) / d)%R.
Proof.
  induction l as [|x l IH].
  - unfold Rsum, Rdiv. simpl. ring.
  - rewrite !fmap_cons, Rsum_cons, IH. cbn [sum_list]. rewrite plus_INR.
    unfold Rdiv, Datatypes.id. ring.
Qed.

Lemma priors_dom st m : trained st m → dom (priors m) = all_categories st.
Proof.
  intros Hm. apply leibniz_equiv. intros c.
  rewrite elem_of_dom, (trained_priors _ _ Hm).
  case_decide; split; (done || by intros []).
Qed.

Lemma likelihoods_dom st m : trained st m → dom (likelihoods m) = all_categories st.
Proof.
  intros Hm. apply leibniz_equiv. intros c. rewrite elem_of_dom. split.
  - intros Hsome. destruct (decide (c ∈ all_categories st)) as [|Hc]; [done|].
    rewrite (trained_no_row _ _ Hm c Hc) in Hsome. by destruct Hsome.
  - intros Hc. destruct (trained_rows _ _ Hm c Hc) as (row & -> & _). eauto.
Qed.

Lemma row_observed st m c row :
  trained st m → likelihoods m !! c = Some row → c ∈ all_categories st.
Proof.
  intros Hm Hrow. rewrite <- (likelihoods_dom st m Hm). apply elem_of_dom. eauto.
Qed.

Lemma ln_nonpositive x : (0 < x)%R → (x <= 1)%R → (ln x <= 0)%R.
Proof.
  intros Hpos [Hlt| ->].
  - apply ln_increasing in Hlt; [|done]. rewrite ln_1 in Hlt. lra.
  - rewrite ln_1. lra.
Qed.

Lemma ratio_le_1 a b : a ≤ b → 0 < b → (INR a / INR b <= 1)%R.
Proof.
  intros Hab Hb. apply Rmult_le_reg_r with (INR b); [by apply lt_0_INR|].
  unfold Rdiv. rewrite Rmult_assoc, Rinv_l, Rmult_1_r, Rmult_1_l.
  - by apply le_INR.
  - apply not_0_INR. lia.
Qed.

Lemma ratio_lt a a' b : a < a' → 0 < b → (INR a / INR b < INR a' / INR b)%R.
Proof.
  intros Ha Hb. apply Rmult_lt_compat_r.
  - by apply Rinv_0_lt_compat, lt_0_INR.
  - by apply lt_INR.
Qed.

Lemma count_le_length c docs : count c docs ≤ length docs.
Proof. apply length_filter. Qed.

Lemma occurrences_le_total w c docs : occurrences w c docs ≤ total_tokens c docs.
Proof. apply length_filter. Qed.

Lemma prior_le_1 st c : corpus_ok st → c ∈ all_categories st → (prior c st <= 1)%R.
Proof.
  intros Hok Hc. unfold prior. rewrite (total_documents_length st Hok).
  apply ratio_le_1; [apply count_le_length|by apply (documents_pos st Hok c)].
Qed.

Lemma smoothed_le_1 st w c :
  corpus_ok st → w ∈ vocabulary st → (smoothed w c st <= 1)%R.
Proof.
  intros Hok Hw. unfold smoothed.
  pose proof (vocabulary_pos st Hok w Hw).
  pose proof (occurrences_le_total w c (documents st)).
  apply ratio_le_1; lia.
Qed.

End ModelFacts.

Import Tables ModelFacts.

(** The priors of a model trained on at least one document form a
    distribution over the observed categories: their exponentials add up
    to 1. *)
Theorem priors_sum_to_one f st :
  corpus_of f = Ok st → documents st ≠ [] →
  ∃ m,
    output_file (train_naive_bayes f) = Some m
    ∧ dom (priors m) = all_categories st
    ∧ prior_mass (priors m) = 1%R.
Proof.
  intros Hst Hdocs. pose proof (corpus_of_ok f st Hst) as Hok.
  destruct (run_saves f st Hst) as (m & Hsaved & Hm).
  exists m. split; [done|]. split; [by apply priors_dom|].
  unfold prior_mass. rewrite (priors_dom st m Hm).
  transitivity (Rsum ((λ c, prior c st) <$> elements (all_categories st))).
  - f_equal. apply list_fmap_ext.
    intros _ c Hc%list_elem_of_lookup_2%elem_of_elements.
    rewrite (trained_priors _ _ Hm), decide_True by done.
    by apply exp_ln, prior_pos.
  - unfold prior.
    rewrite (Rsum_INR_ratio (λ c, count c (documents st))).
    fold (total_documents (all_categories st) (documents st)).
    apply Rdiv_diag, not_0_INR. rewrite (total_documents_length st Hok).
    by destruct (documents st).
Qed.

Lemma priors_sum_to_one_witness :
  ∃ m,
    output_file (train_naive_bayes scenario_file) = Some m
    ∧ dom (priors m) = all_categories scenario_corpus
    ∧ prior_mass (priors m) = 1%R.
Proof.
  apply (priors_sum_to_one scenario_file scenario_corpus).
  - vm_compute. reflexivity.
  - discriminate.
Defined.

(** The tables of the saved model agree with each other and with its
    metadata: the priors and the likelihoods have the observed categories
    as keys, every row has the vocabulary as keys, [vocab_size] entries,
    and [doc_count] is the number of retained documents. *)
Theorem model_tables_agree f st :
  corpus_of f = Ok st →
  ∃ m,
    output_file (train_naive_bayes f) = Some m
    ∧ dom (priors m) = all_categories st
    ∧ dom (likelihoods m) = all_categories st
    ∧ (∀ c row, likelihoods m !! c = Some row →
                dom row = vocabulary st ∧ size row = vocab_size m)
    ∧ doc_count m = length (documents st).
Proof.
  intros Hst. destruct (run_saves f st Hst) as (m & Hsaved & Hm).
  exists m. split; [done|]. split; [by apply priors_dom|].
  split; [by apply likelihoods_dom|]. split; [|by apply trained_doc_count].
  intros c row Hrow. pose proof (row_observed st m c row Hm Hrow) as Hc.
  pose proof (row_dom st m c row Hm Hc Hrow) as Hdom. split; [done|].
  by rewrite (trained_vocab_size _ _ Hm), <- Hdom, size_dom.
Qed.

Lemma model_tables_agree_witness :
  ∃ m,
    output_file (train_naive_bayes scenario_file) = Some m
    ∧ dom (priors m) = all_categories scenario_corpus
    ∧ dom (likelihoods m) = all_categories scenario_corpus
    ∧ (∀ c row, likelihoods m !! c = Some row →
                dom row = vocabulary scenario_corpus
                ∧ size row = vocab_size m)
    ∧ doc_count m = length (documents scenario_corpus).
Proof.
  apply (model_tables_agree scenario_file scenario_corpus).
  vm_compute. reflexivity.
Defined.

(** Every entry of the saved model is the logarithm of a probability: no
    prior and no likelihood is above 0. *)
Theorem log_probabilities_are_not_positive f st :
  corpus_of f = Ok st →
  ∃ m,
    output_file (train_naive_bayes f) = Some m
    ∧ (∀ c log_prob, priors m !! c = Some log_prob → (log_prob <= 0)%R)
    ∧ (∀ c row w log_prob,
         likelihoods m !! c = Some row → row !! w = Some log_prob →
         (log_prob <= 0)%R).
Proof.
  intros Hst. pose proof (corpus_of_ok f st Hst) as Hok.
  destruct (run_saves f st Hst) as (m & Hsaved & Hm).
  exists m. split; [done|]. split.
  - intros c log_prob. rewrite (trained_priors _ _ Hm).
    case_decide as Hc; [|done]. intros [= <-].
    apply ln_nonpositive; [by apply prior_pos|by apply prior_le_1].
  - intros c row w log_prob Hrow.
    pose proof (row_observed st m c row Hm Hrow) as Hc.
    destruct (trained_rows _ _ Hm c Hc) as (row' & Hrow' & Hentries).
    assert (row' = row) as -> by congruence. rewrite Hentries.
    case_decide as Hw; [|done]. intros [= <-].
    apply ln_nonpositive; [by apply smoothed_pos|by apply smoothed_le_1].
Qed.

Lemma log_probabilities_are_not_positive_witness :
  ∃ m,
    output_file (train_naive_bayes scenario_file) = Some m
    ∧ (∀ c log_prob, priors m !! c = Some log_prob → (log_prob <= 0)%R)
    ∧ (∀ c row w log_prob,
         likelihoods m !! c = Some row → row !! w = Some log_prob →
         (log_prob <= 0)%R).
Proof.
  apply (log_probabilities_are_not_positive scenario_file scenario_corpus).
  vm_compute. reflexivity.
Defined.

(** Within a category, a token that occurs more often has the greater
    likelihood. *)
Theorem likelihood_increases_with_count f st c w1 w2 :
  corpus_of f = Ok st → c ∈ all_categories st →
  w1 ∈ vocabulary st → w2 ∈ vocabulary st →
  occurrences w1 c (documents st) < occurrences w2 c (documents st) →
  ∃ m row l1 l2,
    output_file (train_naive_bayes f) = Some m
    ∧ likelihoods m !! c = Some row
    ∧ row !! w1 = Some l1 ∧ row !! w2 = Some l2
    ∧ (l1 < l2)%R.
Proof.
  intros Hst Hc Hw1 Hw2 Hlt. pose proof (corpus_of_ok f st Hst) as Hok.
  destruct (run_saves f st Hst) as (m & Hsaved & Hm).
  destruct (trained_rows _ _ Hm c Hc) as (row & Hrow & Hentries).
  exists m, row, (ln (smoothed w1 c st)), (ln (smoothed w2 c st)).
  split; [done|]. split; [done|].
  split; [by rewrite Hentries, decide_True by done|].
  split; [by rewrite Hentries, decide_True by done|].
  apply ln_increasing; [by apply smoothed_pos|].
  unfold smoothed. pose proof (vocabulary_pos st Hok w1 Hw1).
  apply ratio_lt; lia.
Qed.

Lemma likelihood_increases_with_count_witness :
  ∃ m row l1 l2,
    output_file (train_naive_bayes scenario_file) = Some m
    ∧ likelihoods m !! LStr "Food" = Some row
    ∧ row !! "ride" = Some l1 ∧ row !! "order" = Some l2
    ∧ (l1 < l2)%R.
Proof.
  apply (likelihood_increases_with_count scenario_file scenario_corpus).
  - vm_compute. reflexivity.
  - by_evaluation.
  - by_evaluation.
  - by_evaluation.
  - vm_compute. lia.
Defined.

(** The counters of the counting loop agree: the document counts of the
    observed categories add up to the number of documents, and in each
    category the counts of the vocabulary tokens add up to the total of the
    category. *)
Theorem counters_agree f st :
  corpus_of f = Ok st →
  sum_list (class_count (count_documents (documents st))
            <$> elements (all_categories st)) = length (documents st)
  ∧ ∀ c, sum_list (class_word_count (count_documents (documents st)) c
                   <$> elements (vocabulary st))
         = class_total (count_documents (documents st)) c.
Proof.
  intros Hst. pose proof (corpus_of_ok f st Hst) as Hok. split.
  - rewrite <- (total_documents_length st Hok). unfold total_documents.
    f_equal. apply list_fmap_ext. intros _ c _. apply class_count_spec.
  - intros c. rewrite class_total_spec, <- (occurrences_sum st Hok c).
    f_equal. apply list_fmap_ext. intros _ w _. apply class_word_count_spec.
Qed.

Lemma counters_agree_witness :
  sum_list (class_count (count_documents (documents scenario_corpus))
            <$> elements (all_categories scenario_corpus))
  = length (documents scenario_corpus)
  ∧ ∀ c, sum_list (class_word_count
                     (count_documents (documents scenario_corpus)) c
                   <$> elements (vocabulary scenario_corpus))
         = class_total (count_documents (documents scenario_corpus)) c.
Proof.
  apply (counters_agree scenario_file scenario_corpus).
  vm_compute. reflexivity.
Defined.

(** ** The classifier and the self-test *)

Module PredictFacts.
Import Json Input Train Spec Tables.
Import LoopFacts IngestFacts CountFacts EstimateFacts ClassifyFacts RunFacts.
Import ModelFacts.

Lemma for_each_ext {A S} (body body' : S → A → result S) items :
  (∀ s x, x ∈ items → body s x = body' s x) →
  ∀ s, for_each body s items = for_each body' s items.
Proof.
  induction items as [|x items IH]; intros Hext s; simpl; [done|].
  rewrite Hext by left. destruct (body' s x); simpl; [|done].
  apply IH. intros s' y Hy. apply Hext. by right.
Qed.

(** The prediction depends on the tokens through the scores only. *)
Lemma classify_ext m (cats : gset label) tokens tokens' :
  (∀ c, c ∈ cats → score_of m c tokens = score_of m c tokens') →
  classify m cats tokens = classify m cats tokens'.
Proof.
  intros Hscore. unfold classify. f_equal. apply for_each_ext.
  intros best c Hc%elem_of_elements. unfold best_step. by rewrite Hscore.
Qed.

Lemma filter_filter_same {A} (P : A → Prop) `{∀ x, Decision (P x)} (l : list A) :
  filter P (filter P l) = filter P l.
Proof.
  induction l as [|x l IH]; [done|]. rewrite filter_cons.
  case_decide; [|done]. by rewrite filter_cons, decide_True, IH.
Qed.

Lemma score_filter st c tokens :
  score st c (filter (λ t, t ∈ vocabulary st) tokens) = score st c tokens.
Proof. unfold score. by rewrite filter_filter_same. Qed.

(** A label that no document has counts no document. *)
Lemma count_unobserved c docs :
  (∀ tokens, (tokens, c) ∉ docs) → count c docs = 0.
Proof.
  induction docs as [|[tokens c'] docs IH]; intros Hnone; [done|].
  rewrite count_cons. simpl. case_decide as Heq.
  - subst. destruct (Hnone tokens). left.
  - apply IH. intros tokens' Hd. apply (Hnone tokens'). by right.
Qed.

Section loop.
Context (m : model) (tokens : list string) (f : label → R).


End loop.

(** The self-test over some of the retained documents: it counts at most
    one per document, and one for each when every prediction is the true
    label. *)
Lemma self_test_from st m docs correct :
  corpus_ok st → trained st m → (∀ d, d ∈ docs → d ∈ documents st) →
  ∃ correct',
    for_each (self_test_step m (all_categories st)) correct docs = Ok correct'
    ∧ correct ≤ correct' ≤ correct + length docs
    ∧ ((∀ d, d ∈ docs → classify m (all_categories st) d.1 = Ok (Some d.2)) →
       correct' = correct + length docs).
Proof.
  intros Hok Hm. revert correct.
  induction docs as [|[tokens true_cat] docs IH]; intros correct Hdocs.
  - exists correct. simpl. split; [done|]. split; [lia|]. intros _. lia.
  - assert (true_cat ∈ all_categories st) as Hin
      by (apply (ok_categories _ Hok); exists tokens; apply Hdocs; left).
    assert (all_categories st ≠ ∅) as Hne.
    { intros Hempty. rewrite Hempty in Hin. by apply not_elem_of_empty in Hin. }
    destruct (classify_best m tokens (λ c, table_score m c tokens)
                (all_categories st) Hne) as (best & Hbest & _).
    { intros c Hc. destruct (trained_entries st m c Hm Hc).
      by apply score_of_table. }
    simpl. rewrite Hbest. simpl.
    destruct (IH (if bool_decide (best = true_cat) then correct + 1 else correct))
      as (correct' & -> & Hbounds & Hall);
      [intros d Hd; apply Hdocs; by right|].
    exists correct'. split; [done|]. split.
    + case_bool_decide; lia.
    + intros Hright.
      assert (classify m (all_categories st) tokens = Ok (Some true_cat))
        as Hfirst by (apply (Hright (tokens, true_cat)); left).
      rewrite Hbest in Hfirst. injection Hfirst as ->.
      rewrite bool_decide_eq_true_2 in Hall by done.
      rewrite Hall; [simpl; lia|]. intros d Hd. apply Hright. by right.
Qed.

(** The two parts of a run that got as far as saving the model. *)
Lemma run_parts f st :
  corpus_of f = Ok st →
  ∃ m, trained st m
       ∧ train_naive_bayes f =
         {| output_file := Some m;
            finish := correct ← self_test m st;
                      true_div correct (doc_count m) |}.
Proof.
  intros Hst. destruct (estimate_trained st (corpus_of_ok f st Hst)) as (m & Hm & Htr).
  exists m. split; [done|]. unfold train_naive_bayes, train.
  rewrite Hst. simpl. by rewrite Hm.
Qed.

End PredictFacts.

Import PredictFacts.

(** Tokens outside the vocabulary do not change the prediction of a
    trained model: a document is classified as its list of vocabulary
    tokens is. *)
Theorem unknown_tokens_are_ignored f st tokens :
  corpus_of f = Ok st →
  ∃ m,
    output_file (train_naive_bayes f) = Some m
    ∧ classify m (all_categories st) tokens =
      classify m (all_categories st)
        (filter (λ t, t ∈ vocabulary st) tokens).
Proof.
  intros Hst. pose proof (corpus_of_ok f st Hst) as Hok.
  destruct (run_saves f st Hst) as (m & Hsaved & Hm).
  exists m. split; [done|]. apply classify_ext. intros c Hc.
  by rewrite !(score_of_spec st m c) by done; rewrite score_filter.
Qed.

Lemma unknown_tokens_are_ignored_witness :
  ∃ m,
    output_file (train_naive_bayes scenario_file) = Some m
    ∧ classify m (all_categories scenario_corpus) ["zomato"; "delivery"] =
      classify m (all_categories scenario_corpus)
        (filter (λ t, t ∈ vocabulary scenario_corpus) ["zomato"; "delivery"]).
Proof.
  apply (unknown_tokens_are_ignored scenario_file scenario_corpus).
  vm_compute. reflexivity.
Defined.



(** A document without a vocabulary token is given a category that has
    the most training documents. *)
Theorem unknown_document_gets_a_largest_category f st tokens :
  corpus_of f = Ok st → all_categories st ≠ ∅ →
  Forall (λ t, t ∉ vocabulary st) tokens →
  ∃ m best,
    output_file (train_naive_bayes f) = Some m
    ∧ classify m (all_categories st) tokens = Ok (Some best)
    ∧ best ∈ all_categories st
    ∧ ∀ c, count c (documents st) ≤ count best (documents st).
Proof.
  intros Hst Hne Hout. pose proof (corpus_of_ok f st Hst) as Hok.
  destruct (run_saves f st Hst) as (m & Hsaved & Hm).
  destruct (classify_best m tokens (λ c, score st c tokens)
              (all_categories st) Hne) as (best & Hbest & Hin & Hmax).
  { intros c Hc. by apply score_of_spec. }
  exists m, best. do 3 (split; [done|]). intros c.
  destruct (decide (c ∈ all_categories st)) as [Hc|Hc].
  - specialize (Hmax c Hc). simpl in Hmax.
    rewrite !score_out_of_vocabulary in Hmax by done.
    destruct (Nat.le_gt_cases (count c (documents st))
                (count best (documents st))) as [|Hlt]; [done|].
    assert (prior best st < prior c st)%R as Hprior.
    { unfold prior. rewrite (total_documents_length st Hok).
      apply ratio_lt; [done|by apply (documents_pos st Hok c)]. }
    apply ln_increasing in Hprior; [lra|by apply prior_pos].
  - rewrite (count_unobserved c (documents st)); [lia|].
    intros tokens' Hd. apply Hc, (ok_categories _ Hok). eauto.
Qed.

Lemma unknown_document_gets_a_largest_category_witness :
  ∃ m best,
    output_file (train_naive_bayes scenario_file) = Some m
    ∧ classify m (all_categories scenario_corpus) ["delivery"] = Ok (Some best)
    ∧ best ∈ all_categories scenario_corpus
    ∧ ∀ c, count c (documents scenario_corpus)
           ≤ count best (documents scenario_corpus).
Proof.
  apply (unknown_document_gets_a_largest_category scenario_file scenario_corpus).
  - vm_compute. reflexivity.
  - intros Hempty. assert (LStr "Food" ∈ (∅ : gset label)) as Hin.
    { rewrite <- Hempty. by_evaluation. }
    by apply not_elem_of_empty in Hin.
  - repeat constructor. by_evaluation.
Defined.

(** With at least one document retained the run ends normally: the
    self-test counts [correct] right predictions, at most one per document,
    and the accuracy printed is [correct / total_docs]. *)
Theorem training_accuracy_is_a_fraction f st :
  corpus_of f = Ok st → documents st ≠ [] →
  ∃ m correct,
    output_file (train_naive_bayes f) = Some m
    ∧ self_test m st = Ok correct
    ∧ correct ≤ length (documents st)
    ∧ finish (train_naive_bayes f) =
      Ok (Z.of_nat correct # Pos.of_nat (length (documents st))).
Proof.
  intros Hst Hdocs. pose proof (corpus_of_ok f st Hst) as Hok.
  destruct (run_parts f st Hst) as (m & Hm & ->).
  destruct (self_test_from st m (documents st) 0 Hok Hm)
    as (correct & Hcorrect & Hbounds & _); [done|].
  exists m, correct. split; [done|]. split; [done|]. split; [lia|].
  simpl. unfold self_test. rewrite Hcorrect. simpl.
  rewrite (trained_doc_count _ _ Hm). by destruct (documents st).
Qed.

Lemma training_accuracy_is_a_fraction_witness :
  ∃ m correct,
    output_file (train_naive_bayes scenario_file) = Some m
    ∧ self_test m scenario_corpus = Ok correct
    ∧ correct ≤ length (documents scenario_corpus)
    ∧ finish (train_naive_bayes scenario_file) =
      Ok (Z.of_nat correct # Pos.of_nat (length (documents scenario_corpus))).
Proof.
  apply (training_accuracy_is_a_fraction scenario_file scenario_corpus).
  - vm_compute. reflexivity.
  - discriminate.
Defined.



(** ** The converter of application logs *)

Module ConvertFacts.
Import Json Input Train Spec Shapes Convert LoopFacts IngestFacts RecordFacts.

(** What the converter promises of a record: the three fields are true
    values, in a record of the standard shape. *)
Lemma convert_entry_records records data records' :
  convert_entry records data = Ok records' →
  records' = records
  ∨ ∃ text merchant label,
      records' = records ++ [standard_record text merchant label]
      ∧ truthy text = true ∧ truthy merchant = true ∧ truthy label = true.
Proof.
  unfold convert_entry.
  intros (raw_input & _ & H)%bind_Ok. apply bind_Ok in H as (parsed & _ & H).
  apply bind_Ok in H as (decision & _ & H). apply bind_Ok in H as (text & _ & H).
  apply bind_Ok in H as (merchant & _ & H). apply bind_Ok in H as (label & _ & H).
  destruct (truthy text) eqn:Ht, (truthy label) eqn:Hl, (truthy merchant) eqn:Hm;
    simpl in H; injection H as <-; try by left.
  right. by exists text, merchant, label.
Qed.

Lemma convert_lines_parsed ls records :
  convert_lines ls records = convert_lines (Parsed <$> parsed_values ls) records.
Proof.
  revert records. induction ls as [|[| |data] ls IH]; intros records.
  - done.
  - apply IH.
  - apply IH.
  - cbn. destruct (convert_entry records data); simpl; [apply IH|done].
Qed.

Lemma convert_lines_app ls ls' records :
  convert_lines (ls ++ ls') records =
  (records' ← convert_lines ls records; convert_lines ls' records').
Proof.
  revert records. induction ls as [|[| |data] ls IH]; intros records.
  - done.
  - apply IH.
  - apply IH.
  - cbn. destruct (convert_entry records data); simpl; [apply IH|done].
Qed.

Lemma convert_lines_records ls records records' :
  convert_lines ls records = Ok records' →
  ∀ r, r ∈ records' →
       r ∈ records
       ∨ ∃ text merchant label,
           r = standard_record text merchant label
           ∧ truthy text = true ∧ truthy merchant = true ∧ truthy label = true.
Proof.
  revert records. induction ls as [|[| |data] ls IH]; intros records; simpl.
  - intros [= <-] r Hr. by left.
  - apply IH.
  - apply IH.
  - intros (records1 & Hentry & Hrest)%bind_Ok r Hr.
    destruct (IH _ Hrest r Hr) as [Hin|?]; [|by right].
    apply convert_entry_records in Hentry
      as [->|(text & merchant & label & -> & ?)]; [by left|].
    apply elem_of_app in Hin as [?| ->%list_elem_of_singleton]; [by left|].
    right. by exists text, merchant, label.
Qed.

(** The trainer on a record of the standard shape. *)
Lemma add_record_standard st text merchant label :
  truthy merchant = true → truthy label = true →
  add_record st (standard_record text merchant label) =
  keep st (Some merchant) (Some label).
Proof.
  intros Hm Hl. unfold standard_record. rewrite add_record_keep.
  unfold first_resolved, resolved. simpl.
  by rewrite Hm, Hl.
Qed.

Lemma get_non_object v key dflt :
  is_object v = false → get v key dflt = Raise AttributeError.
Proof. by destruct v. Qed.

Lemma get_object v key dflt :
  is_object v = true → ∃ x, get v key dflt = Ok x.
Proof. destruct v; try done. simpl. eauto. Qed.

(** The three inner lookups raise as soon as one of the three values is
    not an object. *)
Lemma gets_raise {A} raw_input parsed decision (rest : json → json → json → result A) :
  is_object raw_input = false ∨ is_object parsed = false
  ∨ is_object decision = false →
  (text ← get raw_input "fullMessageText" JNull;
   merchant ← get parsed "merchantName" JNull;
   label ← get decision "categoryName" JNull;
   rest text merchant label) = Raise AttributeError.
Proof.
  intros Hone. destruct (is_object raw_input) eqn:Hr;
    [|by rewrite (get_non_object raw_input) by done].
  destruct (get_object raw_input "fullMessageText" JNull Hr) as (text & ->).
  simpl. destruct (is_object parsed) eqn:Hp;
    [|by rewrite (get_non_object parsed) by done].
  destruct (get_object parsed "merchantName" JNull Hp) as (merchant & ->).
  simpl. destruct (is_object decision) eqn:Hd;
    [|by rewrite (get_non_object decision) by done].
  destruct Hone as [?|[?|?]]; congruence.
Qed.

End ConvertFacts.

Import Convert ConvertFacts.

(** Blank lines and lines that are not JSON do not end the conversion and
    leave no trace: the outcome is that of the log without them. *)
Theorem convert_passes_over_bad_lines ls :
  convert_log_to_training_data ls =
  convert_log_to_training_data (Parsed <$> parsed_values ls).
Proof. apply convert_lines_parsed. Qed.

(** Every record that the converter writes has the standard shape, with a
    text, a merchant and a label that are true values. *)
Theorem converted_records_are_complete ls records r :
  convert_log_to_training_data ls = Ok records → r ∈ records →
  ∃ text merchant label,
    r = standard_record text merchant label
    ∧ truthy text = true ∧ truthy merchant = true ∧ truthy label = true.
Proof.
  intros Hconv Hr.
  destruct (convert_lines_records ls [] records Hconv r Hr) as [Hin|?]; [|done].
  by apply elem_of_nil in Hin.
Qed.

Lemma converted_records_are_complete_witness :
  ∃ text merchant label,
    standard_record (JStr "Rs 90 paid to UBER RIDE") (JStr "Uber Ride")
      (JStr "Transport") = standard_record text merchant label
    ∧ truthy text = true ∧ truthy merchant = true ∧ truthy label = true.
Proof.
  eapply (converted_records_are_complete scenario_log).
  - reflexivity.
  - right. left.
Defined.

(** A parsed line that is not an object ends the conversion with
    [AttributeError], and so does an entry whose [rawInput],
    [parsedFields] or [finalDecision] is present and not an object, such as
    [null]: the default of [.get] stands in for a missing key only. *)
Theorem convert_aborts_on_non_object before data after records :
  convert_log_to_training_data before = Ok records →
  (is_object data = false
   ∨ ∃ members key v,
       data = JObj members
       ∧ key ∈ ["rawInput"; "parsedFields"; "finalDecision"]
       ∧ assoc key members = Some v ∧ is_object v = false) →
  convert_log_to_training_data (before ++ Parsed data :: after) =
  Raise AttributeError.
Proof.
  intros Hbefore Hbad. unfold convert_log_to_training_data in *.
  rewrite convert_lines_app, Hbefore. simpl.
  assert (convert_entry records data = Raise AttributeError) as ->; [|done].
  destruct Hbad as [Hdata|(members & key & v & -> & Hkey & Hv & Hobj)].
  { by destruct data. }
  unfold convert_entry. simpl. apply gets_raise.
  repeat (apply elem_of_cons in Hkey as [Hkey|Hkey];
          [subst key; rewrite Hv; simpl; by eauto|]).
  by apply elem_of_nil in Hkey.
Qed.

Lemma convert_aborts_on_non_object_witness :
  convert_log_to_training_data null_raw_input_log = Raise AttributeError.
Proof.
  eapply (convert_aborts_on_non_object
            [Parsed (log_entry (JStr "Rs 250 spent at ZOMATO ORDER")
                       (JStr "Zomato Order") (JStr "Food"))]
            (JObj [("rawInput", JNull)]) []).
  - reflexivity.
  - right. exists [("rawInput", JNull)], "rawInput", JNull.
    split; [reflexivity|]. split; [left|]. split; reflexivity.
Defined.

(** The trainer takes the merchant of a converted record as its text, not
    the full message, and its label as the category. *)
Theorem trainer_reads_merchant_of_converted_record ls records r :
  convert_log_to_training_data ls = Ok records → r ∈ records →
  ∃ text merchant label,
    r = standard_record text merchant label
    ∧ ∀ st, add_record st r = keep st (Some merchant) (Some label).
Proof.
  intros Hconv Hr.
  destruct (convert_lines_records ls [] records Hconv r Hr)
    as [Hin|(text & merchant & label & -> & _ & Hm & Hl)].
  { by apply elem_of_nil in Hin. }
  exists text, merchant, label. split; [done|].
  intros st. by apply add_record_standard.
Qed.

Lemma trainer_reads_merchant_of_converted_record_witness :
  ∃ text merchant label,
    standard_record (JStr "Rs 250 spent at ZOMATO ORDER") (JStr "Zomato Order")
      (JStr "Food") = standard_record text merchant label
    ∧ ∀ st, add_record st
              (standard_record (JStr "Rs 250 spent at ZOMATO ORDER")
                 (JStr "Zomato Order") (JStr "Food"))
            = keep st (Some merchant) (Some label).
Proof.
  eapply (trainer_reads_merchant_of_converted_record scenario_log).
  - reflexivity.
  - left.
Defined.
